(** * SublimeLinter3 commands: error navigation and report generation

    A shallow embedding of [commands.py]: the navigation commands
    ([sublimelinter_find_error.find_error], [select_lint_region],
    [find_mark_within], the [error_command] decorator) and the report
    command ([sublimelinter_report.report], [folder]).

    The editor objects the plugin talks to ([sublime.Region],
    [sublime.Selection], the mark regions of a view, the settings store,
    the modal error dialog) are not part of the plugin; they are modelled
    here as the API of the editor documents them, and every such
    definition says so. *)

From Stdlib Require Import Sorted.
From stdpp Require Import base list gmap strings pretty.

Local Open Scope Z_scope.

(** ** The editor's regions *)

Module Region.

(** [sublime.Region(a, b)]: two offsets, in either order. *)
Record t : Set := mk { a : Z; b : Z }.

(** [region.begin()] is the smaller offset, [region.end()] the larger. *)
Definition begin (r : t) : Z := Z.min (a r) (b r).
Definition end_ (r : t) : Z := Z.max (a r) (b r).

(** [region.contains(point)]: [begin() <= point <= end()]. *)
Definition contains_point (r : t) (p : Z) : bool :=
  bool_decide (begin r ≤ p) && bool_decide (p ≤ end_ r).

(** [region.contains(other)]: both ends of [other] are contained. *)
Definition contains (r x : t) : bool :=
  contains_point r (a x) && contains_point r (b x).

(** [region.intersects(other)]: the two are the same span, or an end of
    one lies strictly inside the other. *)
Definition intersects (l r : t) : bool :=
  let lb := begin l in let le := end_ l in
  let rb := begin r in let re := end_ r in
  (bool_decide (lb = rb) && bool_decide (le = re))
  || (bool_decide (lb < rb) && bool_decide (rb < le))
  || (bool_decide (lb < re) && bool_decide (re < le))
  || (bool_decide (rb < lb) && bool_decide (lb < re))
  || (bool_decide (rb < le) && bool_decide (le < re)).

(** [region.cover(other)]: the smallest span holding both. *)
Definition cover (l r : t) : t :=
  mk (Z.min (begin l) (begin r)) (Z.max (end_ l) (end_ r)).

End Region.

Abbreviation Region := Region.t.

(** ** The editor's selection

    The API of the editor: [sublime.Selection] maintains a set of sorted,
    non-overlapping regions, and [add] merges the new region with the
    regions it intersects.  The object is a handle, by view id, on the
    selection of that view: [view.sel()] and
    [sublime.Selection(view.id())] name the same store.  Which way round a
    merged region points is not tracked here: it is written begin first. *)

Module Selection.

(** [Selection.add(region)] on the spans the selection holds. *)
Fixpoint add (r : Region) (s : list Region) : list Region :=
  match s with
  | [] => [r]
  | x :: s' =>
      if Region.intersects x r then add (Region.cover x r) s'
      else if bool_decide (Region.end_ r ≤ Region.begin x) then r :: x :: s'
      else x :: add r s'
  end.

(** [Selection.add_all(regions)]: [add] each, in order. *)
Definition add_all (rs : list Region) (s : list Region) : list Region :=
  foldl (λ acc r, add r acc) s rs.

(** What the editor guarantees of a selection: its spans come in
    order, none reaching past the start of a later one, and no two of
    them intersect. *)
Fixpoint wf (s : list Region) : bool :=
  match s with
  | [] => true
  | x :: s' =>
      forallb (λ y, bool_decide (Region.end_ x ≤ Region.begin y)
                    && negb (Region.intersects x y)) s'
      && wf s'
  end.

End Selection.

(** ** Python sequences and exceptions *)

Inductive exn : Set := IndexError.

Inductive result (A : Type) : Type :=
| Ok (x : A)
| Raise (e : exn).
Arguments Ok {A} x.
Arguments Raise {A} e.

Definition bind {A B} (m : result A) (k : A → result B) : result B :=
  match m with
  | Ok x => k x
  | Raise e => Raise e
  end.

Notation "'let!' x := m 'in' k" := (bind m (λ x, k))
  (at level 10, x name, m at level 100, k at level 200,
   format "'[v' 'let!'  x  :=  m  'in' '/' k ']'").

(** [seq[i]] with Python's negative indices; out of range raises. *)
Definition getitem {A} (l : list A) (i : Z) : result A :=
  let n := Z.of_nat (length l) in
  let j := if bool_decide (i < 0) then i + n else i in
  if bool_decide (0 ≤ j < n) then
    match l !! Z.to_nat j with
    | Some x => Ok x
    | None => Raise IndexError
    end
  else Raise IndexError.

(** ** The view and the plugin's shared state *)

(** [Highlight.WARNING] and [Highlight.ERROR]: the two kinds of marks. *)
Inductive Severity : Set := WARNING | ERROR.

(** The part of a [sublime.View] the commands read and write: the
    selection, the mark regions stored under each severity's key
    ([view.get_regions(Highlight.MARK_KEY_FORMAT.format(severity))]), and
    the region last handed to [view.show]. *)
Record View : Set := mkView {
  sel : list Region;
  warning_marks : list Region;
  error_marks : list Region;
  shown : option Region
}.

Definition get_regions (v : View) (s : Severity) : list Region :=
  match s with
  | WARNING => warning_marks v
  | ERROR => error_marks v
  end.

Definition set_sel (s : list Region) (v : View) : View :=
  mkView s (warning_marks v) (error_marks v) (shown v).

Definition show (r : Region) (v : View) : View :=
  mkView (sel v) (warning_marks v) (error_marks v) (Some r).

(** What a command runs in: the view, [persist.errors] (view id to line
    to messages; only the entry of this view matters), the ['wrap_find']
    entry of [persist.settings], and the messages shown so far by
    [sublime.error_message]. *)
Record World : Type := mkWorld {
  view : View;
  persist_errors : option (gmap Z (list string));
  wrap_find : option bool;
  messages : list string
}.

Definition set_view (v : View) (w : World) : World :=
  mkWorld v (persist_errors w) (wrap_find w) (messages w).

Definition error_message (m : string) (w : World) : World :=
  mkWorld (view w) (persist_errors w) (wrap_find w) (messages w ++ [m]).

(** [persist.settings.get('wrap_find', True)]. *)
Definition settings_get_wrap_find (w : World) : bool :=
  default true (wrap_find w).

(** ** Sorting as Python does it

    [list.sort(key=...)] and [sorted] are stable: elements with equal keys
    keep their order. *)

Fixpoint insert_by {A} (key : A → Z) (x : A) (l : list A) : list A :=
  match l with
  | [] => [x]
  | y :: l' =>
      if bool_decide (key x ≤ key y) then x :: y :: l'
      else y :: insert_by key x l'
  end.

Definition sort_by {A} (key : A → Z) (l : list A) : list A :=
  foldr (insert_by key) [] l.

(** ** Navigation: [sublimelinter_find_error] *)

(** [find_mark_within(view, region)]: the first mark, in order of
    [begin], that the region contains. *)
Definition find_mark_within (v : View) (region : Region) : option Region :=
  let marks := get_regions v WARNING in
  let marks := marks ++ get_regions v ERROR in
  let marks := sort_by Region.begin marks in
  List.find (λ mark, Region.contains region mark) marks.

(** [select_lint_region(view, region)]. *)
Definition select_lint_region (region : Region) (v : View) : View :=
  let v := set_sel [] v in
  let marked_region :=
    match find_mark_within v region with
    | Some m => m
    | None => Region.mk (Region.begin region) (Region.begin region)
    end in
  let v := set_sel (Selection.add marked_region (sel v)) v in
  show marked_region v.

(** The two loops of [find_error]: forward, the first region beginning
    after the point; backward, the first region, from the end, ending
    before the point. *)
Definition scan (forward : bool) (point : Z) (regions : list Region)
  : option Region :=
  if forward then
    List.find (λ region, bool_decide (point < Region.begin region)) regions
  else
    List.find (λ region, bool_decide (point > Region.end_ region))
      (reverse regions).

(** The message of the failure branch. *)
Definition no_more_message (forward : bool) : string :=
  "No " +:+ (if forward then "next" else "previous") +:+ " lint errors.".

(** [find_error(view, errors, forward)].  [sel] and [regions] are two
    handles on the selection of the view, so the regions are collected in
    the selection itself, which is why the failure branch puts
    [saved_sel] back.  [sel.add((0, 0))] is read as adding the empty span
    at offset 0.  The result is the pair of the value returned and the
    state left behind. *)
Definition find_error (forward : bool) (w : World)
  : result (option Region * World) :=
  let saved_sel := sel (view w) in
  let v := view w in
  let v := if bool_decide (length (sel v) = 0%nat)
           then set_sel (Selection.add (Region.mk 0 0) (sel v)) v else v in
  let! point :=
    (if forward then let! r := getitem (sel v) 0 in Ok (Region.begin r)
     else let! r := getitem (sel v) (-1) in Ok (Region.end_ r)) in
  let v := set_sel [] v in
  let v := set_sel (Selection.add_all (get_regions v WARNING) (sel v)) v in
  let v := set_sel (Selection.add_all (get_regions v ERROR) (sel v)) v in
  let regions := sel v in
  let region_to_select := scan forward point regions in
  let! region_to_select :=
    match region_to_select with
    | Some r => Ok (Some r)
    | None =>
        let! may_wrap :=
          (if bool_decide (1 < length regions)%nat then Ok true
           else let! r0 := getitem regions 0 in
                Ok (negb (Region.contains_point r0 point))) in
        if may_wrap then
          if settings_get_wrap_find w then
            let! r := (if forward then getitem regions 0
                       else getitem regions (-1)) in
            Ok (Some r)
          else Ok None
        else Ok None
    end in
  match region_to_select with
  | Some r => Ok (Some r, set_view (select_lint_region r v) w)
  | None =>
      let v := set_sel [] v in
      let v := set_sel (Selection.add_all saved_sel (sel v)) v in
      Ok (None, error_message (no_more_message forward) (set_view v w))
  end.

(** [error_command(f)]: run [f] only if the view has errors recorded. *)
Definition error_command (f : World → result World) (w : World)
  : result World :=
  match persist_errors w with
  | Some errors =>
      if bool_decide (errors ≠ ∅) then f w
      else Ok (error_message "No lint errors." w)
  | None => Ok (error_message "No lint errors." w)
  end.

(** [sublimelinter_next_error.run] and [sublimelinter_previous_error.run]. *)
Definition next_error_run : World → result World :=
  error_command (λ w, let! p := find_error true w in Ok p.2).

Definition previous_error_run : World → result World :=
  error_command (λ w, let! p := find_error false w in Ok p.2).

(** The regions [find_error] scans, and the point it scans from. *)
Definition regions_of (v : View) : list Region :=
  Selection.add_all (get_regions v ERROR)
    (Selection.add_all (get_regions v WARNING) []).

Definition anchor (forward : bool) (s : list Region) : Z :=
  let s := if bool_decide (length s = 0%nat) then [Region.mk 0 0] else s in
  if forward then from_option Region.begin 0 (head s)
  else from_option Region.end_ 0 (last s).

(** ** Reports: [sublimelinter_report] *)

(** The characters the format strings and the paths are made of. *)
Definition newline : Ascii.ascii := Ascii.ascii_of_nat 10.
Definition slash : Ascii.ascii := Ascii.ascii_of_nat 47.
Definition nl : string := String newline EmptyString.

Fixpoint ends_with (c : Ascii.ascii) (s : string) : bool :=
  match s with
  | EmptyString => false
  | String x EmptyString => bool_decide (x = c)
  | String _ s' => ends_with c s'
  end.

Definition starts_with (c : Ascii.ascii) (s : string) : bool :=
  match s with
  | String x _ => bool_decide (x = c)
  | EmptyString => false
  end.

(** [os.path.join(root, name)], POSIX flavour, for two components. *)
Definition path_join (root name : string) : string :=
  if starts_with slash name then name
  else if bool_decide (root = "") || ends_with slash root then root +:+ name
  else root +:+ "/" +:+ name.

(** [os.path.basename(p)], POSIX flavour: what follows the last slash. *)
Fixpoint basename_from (current p : string) : string :=
  match p with
  | EmptyString => current
  | String c p' =>
      if bool_decide (c = slash) then basename_from "" p'
      else basename_from (current +:+ String c EmptyString) p'
  end.

Definition basename (p : string) : string := basename_from "" p.

(** A linter as the report reads it: [linter.filename] (possibly [None])
    and [linter.errors], from line to the (column, message) pairs of the
    line. *)
Record Linter : Type := mkLinter {
  filename : option string;
  errors : gmap Z (list (Z * string))
}.

(** Truth of [linter.errors]: a dict is true when it is not empty. *)
Definition has_errors (l : Linter) : bool := bool_decide (errors l ≠ ∅).

(** [sorted(d.items())]: the keys of a dict are distinct, so the pairs
    come in the order of their keys. *)
Definition sorted_items {V} (d : gmap Z V) : list (Z * V) :=
  sort_by fst (map_to_list d).

(** ['  {}: {}\n'.format(line, error)]. *)
Definition format_entry (line : Z) (error : string) : string :=
  "  " +:+ pretty line +:+ ": " +:+ error +:+ nl.

(** [x or 'untitled'] on an optional string. *)
Definition or_untitled (x : option string) : string :=
  match x with
  | Some f => if bool_decide (f = "") then "untitled" else f
  | None => "untitled"
  end.

(** The closure [insert] of [finish_lint], as a function of the text of
    the output document: [output.insert(edit, output.size(), out)] puts
    [out] at the end. *)
Definition insert (linters : list Linter) (text : string) : result string :=
  if negb (existsb has_errors linters) then Ok text
  else
    let! first := getitem linters 0 in
    let filename := basename (or_untitled (filename first)) in
    let out := nl +:+ filename +:+ ":" +:+ nl in
    let out :=
      foldl (λ out linter,
        if has_errors linter then
          foldl (λ out item,
            foldl (λ out entry, out +:+ format_entry item.1 entry.2)
                  out item.2)
            out (sorted_items (errors linter))
        else out) out linters in
    Ok (text +:+ out).

(** The output document: its text and the edits queued for it in
    [persist.edits]. *)
Record Output : Type := mkOutput {
  text : string;
  edits : list (string → result string)
}.

(** Modelled from the spec: the command ['sublimelinter_edit'] and
    [persist.edit] behind it live in other modules of the plugin; the
    spec's [drainAndApply] pops every edit queued for the document and
    applies them in the order they were queued. *)
Definition run_sublimelinter_edit (o : Output) : result Output :=
  let! t := foldl (λ acc e, let! t := acc in e t) (Ok (text o)) (edits o) in
  Ok (mkOutput t []).

(** [finish_lint(view, linters)], the callback [report] hands to the lint
    run of a view. *)
Definition finish_lint (linters : list Linter) (o : Output) : result Output :=
  if bool_decide (linters = []) then Ok o
  else
    let o := mkOutput (text o) (edits o ++ [insert linters]) in
    run_sublimelinter_edit o.

(** The size test of [folder]. *)
Definition small_enough (st_size : Z) : bool :=
  bool_decide (st_size < 256 * 1024).

(** [folder(output, folder)].  [walk] is what [os.walk(folder)] yields,
    [st_size] the size [os.stat] reports for a path.  Every path of the
    walk is taken to have a size: a path on which [os.stat] fails (a
    dangling link, say) raises and ends the walk there, and that is not
    modelled.  The block the size test guards is still a [pass], so
    nothing is written to the output; the value returned here is the
    list of the paths that reach it. *)
Definition folder (walk : list (string * list string * list string))
    (st_size : string → Z) : list string :=
  foldl (λ acc entry,
    let root := entry.1.1 in
    let files := entry.2 in
    foldl (λ acc name,
      let path := path_join root name in
      if small_enough (st_size path) then acc ++ [path] else acc)
      acc files)
    [] walk.

(** The entries of a report, in the order [insert] writes them: linter
    by linter, each linter's lines in ascending order, each line's
    (column, message) pairs as the linter lists them. *)
Definition item_entries (item : Z * list (Z * string)) : list (Z * Z * string) :=
  map (λ entry, (item.1, entry.1, entry.2)) item.2.

Definition linter_entries (l : Linter) : list (Z * Z * string) :=
  flat_map item_entries (sorted_items (errors l)).

Definition report_entries (linters : list Linter) : list (Z * Z * string) :=
  flat_map linter_entries linters.

Definition entry_text (e : Z * Z * string) : string :=
  format_entry e.1.1 e.2.

Definition joined (ss : list string) : string := foldr String.append "" ss.

(** The header of a fragment. *)
Definition header (first : Linter) : string :=
  nl +:+ basename (or_untitled (filename first)) +:+ ":" +:+ nl.

(** ** Vocabulary of the statements *)

(** Order by a key. *)
Definition key_le {A} (key : A → Z) (x y : A) : Prop := key x ≤ key y.

(** Order of report entries by their line. *)
Definition line_le (x y : Z * Z * string) : Prop := x.1.1 ≤ y.1.1.

(** Two spans of a selection, the first wholly before the second, that
    [add] would not merge. *)
Definition apart (x y : Region) : Prop :=
  Region.end_ x ≤ Region.begin y ∧ Region.intersects x y = false.

(** A region lies within one of the regions of a list. *)
Definition covered_by (l : list Region) (m : Region) : Prop :=
  ∃ r, r ∈ l ∧ Region.contains r m = true.

(** What is left of [find_error] once the point and the regions are
    named: the choice of the region, then one of the two exits. *)
Definition choose (forward wrap : bool) (point : Z) (regions : list Region)
  : result (option Region) :=
  match scan forward point regions with
  | Some r => Ok (Some r)
  | None =>
      let! may_wrap :=
        (if bool_decide (1 < length regions)%nat then Ok true
         else let! r0 := getitem regions 0 in
              Ok (negb (Region.contains_point r0 point))) in
      if may_wrap then
        if wrap then
          let! r := (if forward then getitem regions 0
                     else getitem regions (-1)) in
          Ok (Some r)
        else Ok None
      else Ok None
  end.

(** ** Sample inputs *)

(** A view with warnings at 10-12 and 30-35 and errors at 0-2 and 20-25,
    the caret at [caret]. *)
Definition sample_view (caret : list Region) : View :=
  mkView caret
    [Region.mk 10 12; Region.mk 30 35]
    [Region.mk 0 2; Region.mk 20 25] None.

Definition sample_world (caret : list Region) (wrap : option bool) : World :=
  mkWorld (sample_view caret) (Some {[ 0 := ["E"] ]}) wrap [].

(** A view whose only mark is a warning at 0-3. *)
Definition sole_world (caret : list Region) : World :=
  mkWorld (mkView caret [Region.mk 0 3] [] None) (Some {[ 0 := ["W"] ]})
    (Some true) [].


(** The same view with wrapping switched off. *)
Definition unmarked_world_no_wrap : World :=
  mkWorld (mkView [Region.mk 1 1] [] [] None) (Some {[ 0 := ["E"] ]})
    (Some false) [].

(** A view whose warning comes after its error. *)
Definition error_first_view : View :=
  mkView [] [Region.mk 10 12] [Region.mk 0 2] None.

(** The linter of the report example: line 3 has one message, line 7 has
    two. *)
Definition example_linter : Linter :=
  mkLinter None {[ 3 := [(0, "x")]; 7 := [(0, "y"); (4, "z")] ]}.

(** A folder of two files, one of 256 KiB - 1 bytes, one of 256 KiB. *)
Definition example_walk : list (string * list string * list string) :=
  [("src", [], ["small.py"; "large.py"])].

Definition example_sizes (path : string) : Z :=
  if bool_decide (path = "src/small.py") then 256 * 1024 - 1 else 256 * 1024.

(** ** The list of all errors: [sublimelinter_all_errors] *)

(** The characters [str.strip()] removes, among the code points below
    256: tab to carriage return, the four separators 28 to 31, space,
    next line (133) and no-break space (160). *)
Definition is_space (c : Ascii.ascii) : bool :=
  let n := Ascii.nat_of_ascii c in
  bool_decide (9 ≤ n ≤ 13)%nat || bool_decide (28 ≤ n ≤ 32)%nat
  || bool_decide (n = 133)%nat || bool_decide (n = 160)%nat.

Fixpoint lstrip (s : string) : string :=
  match s with
  | EmptyString => EmptyString
  | String c s' => if is_space c then lstrip s' else s
  end.

Fixpoint rstrip (s : string) : string :=
  match s with
  | EmptyString => EmptyString
  | String c s' =>
      match rstrip s' with
      | EmptyString => if is_space c then EmptyString else String c EmptyString
      | t => String c t
      end
  end.

(** [s.strip()]. *)
Definition strip (s : string) : string := rstrip (lstrip s).

(** The text of a view as the commands read it: [full_line lineno] is
    [view.substr(view.full_line(view.text_point(lineno, 0)))] and
    [line_region line] is [view.line(view.text_point(line, 0))]. *)
Record Buffer : Type := mkBuffer {
  full_line : Z → string;
  line_region : Z → Region
}.

(** ["%i| %s" % (lineno + 1, line.strip())]. *)
Definition option_head (b : Buffer) (lineno : Z) : string :=
  pretty (lineno + 1) +:+ "| " +:+ strip (full_line b lineno).

(** The [while messages] loop of [run]: one option for every two
    messages of the line, [messages[:2]] each time, the loop going on
    with [messages[2:]].  The state is the pair of [options] and
    [option_to_line]. *)
Fixpoint all_errors_line (head : string) (lineno : Z) (messages : list string)
    (acc : list (list string) * list Z) : list (list string) * list Z :=
  match messages with
  | [] => acc
  | _ :: rest =>
      let acc := (acc.1 ++ [head :: take 2 messages], acc.2 ++ [lineno]) in
      match rest with
      | [] => acc
      | _ :: rest' => all_errors_line head lineno rest' acc
      end
  end.

(** The body of [sublimelinter_all_errors.run] up to the quick panel:
    the options it shows and the line of each. *)
Definition all_errors (b : Buffer) (errors : gmap Z (list string))
  : list (list string) * list Z :=
  foldl (λ acc item, all_errors_line (option_head b item.1) item.1 item.2 acc)
    ([], []) (sorted_items errors).

(** [select_line(view, line)]. *)
Definition select_line (b : Buffer) (line : Z) (v : View) : View :=
  let v := set_sel [] v in
  set_sel (Selection.add (line_region b line) (sel v)) v.

(** [center_line(i)], the callback of the quick panel; with the view it
    returns the region handed to [view.show_at_center], if any. *)
Definition center_line (b : Buffer) (option_to_line : list Z) (i : Z)
    (v : View) : result (View * option Region) :=
  if bool_decide (i ≠ -1) then
    let! line := getitem option_to_line i in
    let v := select_line b line v in
    let! first := getitem (sel v) 0 in
    Ok (v, Some first)
  else Ok (v, None).

(** The rows of the panel, named apart from the loop that builds them:
    the messages of a line two by two, every pair with its line. *)
Fixpoint chunks2 {A} (l : list A) : list (list A) :=
  match l with
  | [] => []
  | _ :: rest =>
      take 2 l :: match rest with
                  | [] => []
                  | _ :: rest' => chunks2 rest'
                  end
  end.

Definition item_rows (item : Z * list string) : list (Z * list string) :=
  map (λ c, (item.1, c)) (chunks2 item.2).

Definition panel_rows (errors : gmap Z (list string)) : list (Z * list string) :=
  flat_map item_rows (sorted_items errors).

(** A region of the scan begins where one of the marks within it begins. *)
Definition has_origin (marks : list Region) (x : Region) : Prop :=
  ∃ m, m ∈ marks ∧ Region.contains x m = true
       ∧ Region.begin m = Region.begin x.

(** What a lint run adds to the report: nothing when no linter has an
    error, the header and the entry lines otherwise. *)
Definition fragment (linters : list Linter) : string :=
  match linters with
  | first :: _ =>
      if existsb has_errors linters
      then header first +:+ joined (map entry_text (report_entries linters))
      else ""
  | [] => ""
  end.

(** The lint runs of a report finishing one after the other, in the
    order of [completions]: each calls [finish_lint] with its linters. *)
Definition finish_all (completions : list (list Linter)) (o : Output)
  : result Output :=
  foldl (λ acc linters, let! o := acc in finish_lint linters o)
    (Ok o) completions.

(** * Properties *)

(** ** Sequences *)

Lemma getitem_nil {A} (i : Z) : getitem (@nil A) i = Raise IndexError.
Proof.
  unfold getitem; cbn [length].
  destruct (bool_decide (i < 0)); by rewrite bool_decide_eq_false_2 by lia.
Qed.

Lemma getitem_first {A} (x : A) (l : list A) : getitem (x :: l) 0 = Ok x.
Proof.
  unfold getitem. cbn [length].
  rewrite (bool_decide_eq_false_2 (0 < 0)) by lia.
  rewrite bool_decide_eq_true_2 by lia. reflexivity.
Qed.

Lemma getitem_last {A} (l : list A) (x : A) : getitem (l ++ [x]) (-1) = Ok x.
Proof.
  unfold getitem. rewrite length_app. cbn [length].
  rewrite (bool_decide_eq_true_2 (-1 < 0)) by lia.
  rewrite bool_decide_eq_true_2 by lia.
  replace (Z.to_nat (-1 + Z.of_nat (length l + 1))) with (length l + 0)%nat by lia.
  rewrite lookup_app_r by lia.
  replace (length l + 0 - length l)%nat with 0%nat by lia. reflexivity.
Qed.

Lemma find_first {A} (P : A → bool) (l : list A) (r : A) :
  List.find P l = Some r ↔
  ∃ l1 l2, l = l1 ++ r :: l2 ∧ Forall (λ x, P x = false) l1 ∧ P r = true.
Proof.
  induction l as [|x l IH]; simpl.
  - split; [discriminate|]. intros (l1 & l2 & E & _). by destruct l1.
  - destruct (P x) eqn:Px.
    + split.
      * intros [= ->]. exists [], l. by repeat split.
      * intros (l1 & l2 & E & F & Pr). destruct l1 as [|y l1]; simpl in E.
        { by injection E as -> _. }
        injection E as -> _. apply Forall_cons in F as [F _]. congruence.
    + rewrite IH. split.
      * intros (l1 & l2 & -> & F & Pr). exists (x :: l1), l2.
        repeat split; [by constructor | done].
      * intros (l1 & l2 & E & F & Pr). destruct l1 as [|y l1]; simpl in E.
        { injection E as -> _. congruence. }
        injection E as -> ->. apply Forall_cons in F as [_ F]. eauto.
Qed.

Lemma find_nothing {A} (P : A → bool) (l : list A) :
  List.find P l = None ↔ Forall (λ x, P x = false) l.
Proof.
  induction l as [|x l IH]; simpl.
  - split; [constructor | done].
  - destruct (P x) eqn:Px.
    + split; [discriminate|]. intros F. apply Forall_cons in F as [F _]. congruence.
    + rewrite IH. split; [by constructor|]. intros F. by apply Forall_cons in F as [_ F].
Qed.

Lemma find_last {A} (P : A → bool) (l : list A) (r : A) :
  List.find P (reverse l) = Some r ↔
  ∃ l1 l2, l = l1 ++ r :: l2 ∧ Forall (λ x, P x = false) l2 ∧ P r = true.
Proof.
  rewrite find_first. split.
  - intros (l1 & l2 & E & F & Pr). exists (reverse l2), (reverse l1).
    repeat split; [|by apply Forall_reverse|done].
    apply (inj reverse). rewrite E, reverse_app, reverse_cons, !reverse_involutive.
    by rewrite <- app_assoc.
  - intros (l1 & l2 & -> & F & Pr). exists (reverse l2), (reverse l1).
    repeat split; [|by apply Forall_reverse|done].
    rewrite reverse_app, reverse_cons, <- app_assoc. done.
Qed.

(** ** Regions and selections *)

Lemma begin_le_end (r : Region) : Region.begin r ≤ Region.end_ r.
Proof. unfold Region.begin, Region.end_. lia. Qed.

Lemma begin_cover (x r : Region) :
  Region.begin (Region.cover x r) = Z.min (Region.begin x) (Region.begin r).
Proof. unfold Region.cover, Region.begin, Region.end_. simpl. lia. Qed.

Lemma end_cover (x r : Region) :
  Region.end_ (Region.cover x r) = Z.max (Region.end_ x) (Region.end_ r).
Proof. unfold Region.cover, Region.begin, Region.end_. simpl. lia. Qed.

Lemma intersects_false (x r : Region) :
  Region.intersects x r = false →
  (Region.begin x ≠ Region.begin r ∨ Region.end_ x ≠ Region.end_ r)
  ∧ ¬ (Region.begin x < Region.begin r < Region.end_ x)
  ∧ ¬ (Region.begin x < Region.end_ r < Region.end_ x)
  ∧ ¬ (Region.begin r < Region.begin x < Region.end_ r)
  ∧ ¬ (Region.begin r < Region.end_ x < Region.end_ r).
Proof.
  unfold Region.intersects. cbv zeta.
  rewrite !orb_false_iff, !andb_false_iff, !bool_decide_eq_false. lia.
Qed.

Lemma add_snoc (r : Region) (p : list Region) :
  Forall (λ x, Region.end_ x ≤ Region.begin r ∧ Region.intersects x r = false) p →
  Selection.add r p = p ++ [r].
Proof.
  induction 1 as [|x p [Hle Hi] _ IH]; [done|]. simpl.
  rewrite Hi. apply intersects_false in Hi.
  pose proof (begin_le_end x). pose proof (begin_le_end r).
  rewrite bool_decide_eq_false_2 by lia. by rewrite IH.
Qed.

Lemma wf_cons (x : Region) (s : list Region) :
  Selection.wf (x :: s) = true ↔
  Forall (λ y, Region.end_ x ≤ Region.begin y ∧ Region.intersects x y = false) s
  ∧ Selection.wf s = true.
Proof.
  simpl. rewrite andb_true_iff, forallb_forall, Forall_forall.
  setoid_rewrite andb_true_iff. setoid_rewrite bool_decide_eq_true.
  setoid_rewrite negb_true_iff. setoid_rewrite <- list_elem_of_In. done.
Qed.

Lemma wf_middle (p q : list Region) (r : Region) :
  Selection.wf (p ++ r :: q) = true →
  Forall (λ x, Region.end_ x ≤ Region.begin r ∧ Region.intersects x r = false) p.
Proof.
  induction p as [|x p IH]; simpl app; [constructor|].
  rewrite wf_cons. intros [F W]. constructor; [|by apply IH].
  rewrite Forall_app, Forall_cons in F. tauto.
Qed.

Lemma add_all_wf (q p : list Region) :
  Selection.wf (p ++ q) = true → Selection.add_all q p = p ++ q.
Proof.
  revert p. induction q as [|r q IH]; intros p W; simpl.
  - by rewrite app_nil_r.
  - unfold Selection.add_all in *. simpl.
    rewrite (add_snoc r p) by by eapply wf_middle.
    rewrite IH; rewrite <- app_assoc; done.
Qed.

Lemma add_all_restore (s : list Region) :
  Selection.wf s = true → Selection.add_all s [] = s.
Proof. intros W. by rewrite add_all_wf. Qed.

Lemma add_all_app (l1 l2 s : list Region) :
  Selection.add_all (l1 ++ l2) s = Selection.add_all l2 (Selection.add_all l1 s).
Proof. unfold Selection.add_all. apply foldl_app. Qed.

Lemma add_lower_bound (z : Z) (s : list Region) (r : Region) :
  z ≤ Region.begin r →
  Forall (λ y, z ≤ Region.begin y) s →
  Forall (λ y, z ≤ Region.begin y) (Selection.add r s).
Proof.
  revert r. induction s as [|x s IH]; intros r Hr F; simpl.
  - by constructor.
  - apply Forall_cons in F as [Hx F].
    destruct (Region.intersects x r).
    + apply IH; [|done]. rewrite begin_cover. lia.
    + case_bool_decide; repeat constructor; auto.
Qed.

Lemma add_sorted (s : list Region) (r : Region) :
  StronglySorted (key_le Region.begin) s → StronglySorted (key_le Region.begin) (Selection.add r s).
Proof.
  revert r. induction s as [|x s IH]; intros r S; simpl.
  - repeat constructor.
  - apply StronglySorted_inv in S as [S F].
    destruct (Region.intersects x r) eqn:Hi; [by apply IH|].
    apply intersects_false in Hi.
    pose proof (begin_le_end x). pose proof (begin_le_end r).
    case_bool_decide.
    + constructor; [by constructor|].
      constructor; [unfold key_le; lia|].
      eapply Forall_impl; [exact F|]. unfold key_le. simpl. lia.
    + constructor; [by apply IH|].
      apply add_lower_bound; [lia|done].
Qed.

Lemma add_all_sorted (rs s : list Region) :
  StronglySorted (key_le Region.begin) s → StronglySorted (key_le Region.begin) (Selection.add_all rs s).
Proof.
  revert s. induction rs as [|r rs IH]; intros s S; [done|].
  apply IH. by apply add_sorted.
Qed.

(** [add] keeps a selection well formed. *)

Lemma intersects_true (x r : Region) :
  Region.intersects x r = true ↔
  (Region.begin x = Region.begin r ∧ Region.end_ x = Region.end_ r)
  ∨ Region.begin x < Region.begin r < Region.end_ x
  ∨ Region.begin x < Region.end_ r < Region.end_ x
  ∨ Region.begin r < Region.begin x < Region.end_ r
  ∨ Region.begin r < Region.end_ x < Region.end_ r.
Proof.
  unfold Region.intersects. cbv zeta.
  rewrite !orb_true_iff, !andb_true_iff, !bool_decide_eq_true. tauto.
Qed.

Lemma apart_iff (x y : Region) :
  apart x y ↔
  Region.end_ x ≤ Region.begin y ∧
  ¬ (Region.begin x = Region.end_ x ∧ Region.begin y = Region.end_ y
     ∧ Region.begin x = Region.begin y).
Proof.
  unfold apart. rewrite <- not_true_iff_false, intersects_true.
  pose proof (begin_le_end x). pose proof (begin_le_end y). lia.
Qed.

Lemma wf_cons_apart (x : Region) (s : list Region) :
  Selection.wf (x :: s) = true ↔ Forall (apart x) s ∧ Selection.wf s = true.
Proof. apply wf_cons. Qed.

Lemma add_apart (x r : Region) (s : list Region) :
  apart x r → Forall (apart x) s → Forall (apart x) (Selection.add r s).
Proof.
  revert r. induction s as [|y s IH]; intros r Hr F; simpl.
  - by constructor.
  - apply Forall_cons in F as [Hy F].
    destruct (Region.intersects y r) eqn:Hi.
    + apply IH; [|done]. apply apart_iff in Hr, Hy. apply apart_iff.
      rewrite begin_cover, end_cover.
      pose proof (begin_le_end y). pose proof (begin_le_end r). lia.
    + case_bool_decide.
      * constructor; [done|]. by constructor.
      * constructor; [done|]. by apply IH.
Qed.

Lemma add_wf (r : Region) (s : list Region) :
  Selection.wf s = true → Selection.wf (Selection.add r s) = true.
Proof.
  revert r. induction s as [|x s IH]; intros r W; [done|].
  apply wf_cons_apart in W as [F W]. cbn [Selection.add].
  destruct (Region.intersects x r) eqn:Hi; [by apply IH|].
  apply not_true_iff_false in Hi. rewrite intersects_true in Hi.
  pose proof (begin_le_end x). pose proof (begin_le_end r).
  case_bool_decide as B.
  - apply wf_cons_apart. split; [|by apply wf_cons_apart].
    constructor.
    + apply apart_iff. lia.
    + eapply Forall_impl; [exact F|]. intros y Hy.
      apply apart_iff in Hy. apply apart_iff.
      pose proof (begin_le_end y). lia.
  - apply wf_cons_apart. split; [|by apply IH].
    apply add_apart; [|done]. apply apart_iff. lia.
Qed.

Lemma add_all_wf_preserved (rs s : list Region) :
  Selection.wf s = true → Selection.wf (Selection.add_all rs s) = true.
Proof.
  revert s. induction rs as [|r rs IH]; intros s W; [done|].
  apply IH. by apply add_wf.
Qed.

(** Every region added lies within a region of the result. *)
Lemma contains_iff (r x : Region) :
  Region.contains r x = true ↔
  Region.begin r ≤ Region.begin x ∧ Region.end_ x ≤ Region.end_ r.
Proof.
  unfold Region.contains, Region.contains_point.
  rewrite !andb_true_iff, !bool_decide_eq_true.
  unfold Region.begin, Region.end_. lia.
Qed.

Lemma covered_by_self (l : list Region) (m : Region) : m ∈ l → covered_by l m.
Proof. intros I. exists m. split; [done|]. apply contains_iff. lia. Qed.

Lemma add_covers (r : Region) (s : list Region) (m : Region) :
  m ∈ r :: s → covered_by (Selection.add r s) m.
Proof.
  revert r m. induction s as [|x s IH]; intros r m I; simpl.
  - by apply covered_by_self.
  - destruct (Region.intersects x r).
    + rewrite !elem_of_cons in I.
      destruct I as [E|[E|I]]; [| |apply IH; by right].
      all: destruct (IH (Region.cover x r) (Region.cover x r)) as (r' & I' & C);
        [by left|]; exists r'; split; [done|];
        apply contains_iff in C; apply contains_iff;
        rewrite begin_cover, end_cover in C; subst m; lia.
    + case_bool_decide; [by apply covered_by_self|].
      rewrite !elem_of_cons in I.
      destruct I as [E|[E|I]].
      * subst m. destruct (IH r r) as (r' & I' & C); [by left|].
        exists r'. split; [by right|done].
      * subst m. apply covered_by_self. by left.
      * destruct (IH r m) as (r' & I' & C); [by right|].
        exists r'. split; [by right|done].
Qed.

Lemma add_all_covers (rs s : list Region) (m : Region) :
  m ∈ s ++ rs → covered_by (Selection.add_all rs s) m.
Proof.
  revert s m. induction rs as [|r rs IH]; intros s m I.
  - rewrite app_nil_r in I. by apply covered_by_self.
  - unfold Selection.add_all. simpl. apply elem_of_app in I as [I|I].
    + destruct (add_covers r s m) as (r' & I' & C); [by right|].
      destruct (IH (Selection.add r s) r') as (r'' & I'' & C');
        [apply elem_of_app; by left|].
      exists r''. split; [done|].
      apply contains_iff in C, C'. apply contains_iff. lia.
    + apply elem_of_cons in I as [->|I].
      * destruct (add_covers r s r) as (r' & I' & C); [by left|].
        destruct (IH (Selection.add r s) r') as (r'' & I'' & C');
          [apply elem_of_app; by left|].
        exists r''. split; [done|].
        apply contains_iff in C, C'. apply contains_iff. lia.
      * apply IH. apply elem_of_app. by right.
Qed.

(** ** [find_error], step by step *)

Lemma getitem_minus_one {A} (x : A) (l : list A) :
  getitem (x :: l) (-1) = Ok (default x (last (x :: l))).
Proof.
  destruct (exists_last (l := x :: l)) as (l' & y & E); [done|].
  rewrite E, getitem_last, last_snoc. done.
Qed.

(** The point the scan starts from is the anchor of the selection. *)
Lemma find_error_point (forward : bool) (v : View) :
  let v' := if bool_decide (length (sel v) = 0%nat)
            then set_sel (Selection.add (Region.mk 0 0) (sel v)) v else v in
  (if forward then let! r := getitem (sel v') 0 in Ok (Region.begin r)
   else let! r := getitem (sel v') (-1) in Ok (Region.end_ r))
  = Ok (anchor forward (sel v)).
Proof.
  unfold anchor. destruct v as [[|x s] W E sh]; cbn [sel length].
  - by destruct forward.
  - rewrite !bool_decide_eq_false_2 by done. cbn [sel]. destruct forward.
    + by rewrite getitem_first.
    + rewrite getitem_minus_one. cbn [bind].
      by destruct (last (x :: s)) eqn:L; [|apply last_None in L].
Qed.

Lemma find_error_eq (forward : bool) (w : World) :
  find_error forward w =
  let! choice := choose forward (settings_get_wrap_find w)
                   (anchor forward (sel (view w))) (regions_of (view w)) in
  match choice with
  | Some r =>
      Ok (Some r,
          set_view (select_lint_region r (set_sel (regions_of (view w)) (view w))) w)
  | None =>
      Ok (None,
          error_message (no_more_message forward)
            (set_view (set_sel (Selection.add_all (sel (view w)) []) (view w)) w))
  end.
Proof.
  unfold find_error. cbv zeta.
  rewrite (find_error_point forward (view w)).
  destruct w as [[[|x s] W E sh] pe wf ms]; reflexivity.
Qed.

Lemma select_lint_region_set_sel (r : Region) (s : list Region) (v : View) :
  select_lint_region r (set_sel s v) = select_lint_region r v.
Proof. by destruct v. Qed.

Lemma scan_forward_first (point : Z) (regions : list Region) (r : Region) :
  scan true point regions = Some r ↔
  ∃ l1 l2, regions = l1 ++ r :: l2 ∧ point < Region.begin r
           ∧ Forall (λ x, ¬ point < Region.begin x) l1.
Proof.
  unfold scan. rewrite find_first.
  setoid_rewrite bool_decide_eq_true. setoid_rewrite bool_decide_eq_false.
  split; intros (l1 & l2 & ? & ? & ?); exists l1, l2; done.
Qed.

Lemma scan_backward_first (point : Z) (regions : list Region) (r : Region) :
  scan false point regions = Some r ↔
  ∃ l1 l2, regions = l1 ++ r :: l2 ∧ Region.end_ r < point
           ∧ Forall (λ x, ¬ Region.end_ x < point) l2.
Proof.
  unfold scan. rewrite find_last.
  setoid_rewrite bool_decide_eq_true. setoid_rewrite bool_decide_eq_false.
  assert (∀ x, ¬ point > Region.end_ x ↔ ¬ Region.end_ x < point) as E
    by (intros; lia).
  setoid_rewrite E. split; intros (l1 & l2 & ? & ? & ?); exists l1, l2;
    repeat split; try done; lia.
Qed.

Lemma scan_none (forward : bool) (point : Z) (regions : list Region) :
  scan forward point regions = None ↔
  Forall (λ x, if forward then ¬ point < Region.begin x
               else ¬ Region.end_ x < point) regions.
Proof.
  unfold scan. destruct forward; rewrite find_nothing.
  - setoid_rewrite bool_decide_eq_false. done.
  - rewrite Forall_reverse. setoid_rewrite bool_decide_eq_false.
    apply Forall_iff. intros x. lia.
Qed.

Lemma choose_scan (forward wrap : bool) (point : Z) (regions : list Region) (r : Region) :
  scan forward point regions = Some r →
  choose forward wrap point regions = Ok (Some r).
Proof. unfold choose. by intros ->. Qed.

Lemma choose_nil (forward wrap : bool) (point : Z) :
  choose forward wrap point [] = Raise IndexError.
Proof. by destruct forward. Qed.

Lemma choose_sole_inside (forward wrap : bool) (point : Z) (r : Region) :
  Region.contains_point r point = true →
  choose forward wrap point [r] = Ok None.
Proof.
  intros C. unfold choose.
  assert (scan forward point [r] = None) as ->.
  { apply scan_none. constructor; [|done].
    unfold Region.contains_point in C.
    apply andb_true_iff in C as [C1 C2].
    apply bool_decide_eq_true in C1, C2. destruct forward; lia. }
  cbn [length]. rewrite bool_decide_eq_false_2 by lia.
  rewrite getitem_first. cbn [bind]. by rewrite C.
Qed.

Lemma choose_wrap (forward : bool) (point : Z) (first last : Region) (mid : list Region) :
  scan forward point (first :: mid ++ [last]) = None →
  choose forward true point (first :: mid ++ [last])
  = Ok (Some (if forward then first else last)).
Proof.
  intros S. unfold choose. rewrite S.
  rewrite bool_decide_eq_true_2
    by (cbn [length]; rewrite length_app; cbn [length]; lia).
  cbn [bind]. destruct forward.
  - by rewrite getitem_first.
  - change (first :: mid ++ [last]) with ((first :: mid) ++ [last]).
    by rewrite getitem_last.
Qed.

Lemma choose_no_wrap (forward : bool) (point : Z) (r : Region) (rest : list Region) :
  scan forward point (r :: rest) = None →
  choose forward false point (r :: rest) = Ok None.
Proof.
  intros S. unfold choose. rewrite S.
  case_bool_decide; cbn [bind]; [done|].
  rewrite getitem_first. cbn [bind]. by destruct (negb _).
Qed.


(** ** Sorting *)

Section sorting.
Context {A : Type} (key : A → Z).

Lemma insert_by_perm (x : A) (l : list A) : insert_by key x l ≡ₚ x :: l.
Proof.
  induction l as [|y l IH]; simpl; [done|].
  case_bool_decide; [done|]. rewrite IH. apply Permutation_swap.
Qed.

Lemma sort_by_perm (l : list A) : sort_by key l ≡ₚ l.
Proof.
  induction l as [|x l IH]; simpl; [done|].
  by rewrite insert_by_perm, IH.
Qed.

Lemma insert_by_sorted (x : A) (l : list A) :
  StronglySorted (key_le key) l → StronglySorted (key_le key) (insert_by key x l).
Proof.
  induction 1 as [|y l S IH F]; simpl.
  - repeat constructor.
  - case_bool_decide.
    + constructor; [by constructor|]. constructor; [done|].
      eapply Forall_impl; [exact F|]. unfold key_le. simpl. lia.
    + constructor; [done|]. rewrite insert_by_perm.
      constructor; [unfold key_le; lia | done].
Qed.

Lemma sort_by_sorted (l : list A) : StronglySorted (key_le key) (sort_by key l).
Proof.
  induction l as [|x l IH]; simpl; [constructor|].
  by apply insert_by_sorted.
Qed.

(** Stability: the elements of one key keep the order they had. *)
Lemma insert_by_stable (k : Z) (x : A) (l : list A) :
  filter (λ y, key y = k) (insert_by key x l)
  = filter (λ y, key y = k) (x :: l).
Proof.
  induction l as [|y l IH]; simpl; [done|].
  case_bool_decide; [done|].
  rewrite filter_cons, IH, !filter_cons.
  repeat case_decide; try done; lia.
Qed.

Lemma sort_by_stable (k : Z) (l : list A) :
  filter (λ y, key y = k) (sort_by key l) = filter (λ y, key y = k) l.
Proof.
  induction l as [|x l IH]; simpl; [done|].
  by rewrite insert_by_stable, !filter_cons, IH.
Qed.
End sorting.

(** ** Reports *)

Lemma append_cons (c : Ascii.ascii) (s1 s2 : string) :
  String c s1 +:+ s2 = String c (s1 +:+ s2).
Proof. reflexivity. Qed.

Lemma append_assoc (s1 s2 s3 : string) : (s1 +:+ s2) +:+ s3 = s1 +:+ s2 +:+ s3.
Proof. induction s1 as [|c s1 IH]; [done|]. by rewrite !append_cons, IH. Qed.

Lemma append_empty_r (s : string) : s +:+ "" = s.
Proof. induction s as [|c s IH]; [done|]. by rewrite append_cons, IH. Qed.

Lemma joined_app (l1 l2 : list string) :
  joined (l1 ++ l2) = joined l1 +:+ joined l2.
Proof.
  induction l1 as [|s l1 IH]; simpl; [done|].
  by rewrite IH, append_assoc.
Qed.

Lemma foldl_append {A} (f : A → string) (l : list A) (out : string) :
  foldl (λ out x, out +:+ f x) out l = out +:+ joined (map f l).
Proof.
  revert out. induction l as [|x l IH]; intros out; simpl.
  - by rewrite append_empty_r.
  - by rewrite IH, append_assoc.
Qed.

Lemma foldl_items (items : list (Z * list (Z * string))) (out : string) :
  foldl (λ out item,
      foldl (λ out entry, out +:+ format_entry item.1 entry.2) out item.2)
    out items
  = out +:+ joined (map entry_text (flat_map item_entries items)).
Proof.
  revert out. induction items as [|item items IH]; intros out; simpl.
  - by rewrite append_empty_r.
  - rewrite IH, (foldl_append (λ entry, format_entry item.1 entry.2)).
    rewrite map_app, joined_app, append_assoc. do 2 f_equal.
    unfold item_entries. rewrite map_map. done.
Qed.

Lemma sorted_items_empty {V} : sorted_items (∅ : gmap Z V) = [].
Proof. unfold sorted_items. by rewrite map_to_list_empty. Qed.

Lemma foldl_linters (linters : list Linter) (out : string) :
  foldl (λ out linter,
      if has_errors linter then
        foldl (λ out item,
            foldl (λ out entry, out +:+ format_entry item.1 entry.2)
              out item.2)
          out (sorted_items (errors linter))
      else out)
    out linters
  = out +:+ joined (map entry_text (report_entries linters)).
Proof.
  revert out. induction linters as [|l linters IH]; intros out; simpl.
  - by rewrite append_empty_r.
  - rewrite IH. unfold report_entries at 2. simpl.
    rewrite map_app, joined_app, <- append_assoc. f_equal.
    unfold has_errors. case_bool_decide as E.
    + apply foldl_items.
    + unfold linter_entries.
      rewrite E, sorted_items_empty. simpl. by rewrite append_empty_r.
Qed.

Lemma insert_clean (linters : list Linter) (t : string) :
  existsb has_errors linters = false → insert linters t = Ok t.
Proof. unfold insert. by intros ->. Qed.

Lemma insert_fragment (first : Linter) (rest : list Linter) (t : string) :
  existsb has_errors (first :: rest) = true →
  insert (first :: rest) t
  = Ok (t +:+ header first
          +:+ joined (map entry_text (report_entries (first :: rest)))).
Proof.
  unfold insert. intros ->. cbn [negb]. rewrite getitem_first. cbn [bind].
  rewrite foldl_linters. unfold header. by rewrite !append_assoc.
Qed.

Lemma item_entries_line (item : Z * list (Z * string)) :
  Forall (λ e, e.1.1 = item.1) (item_entries item).
Proof.
  unfold item_entries. apply Forall_forall. intros e.
  rewrite list_elem_of_fmap. by intros (? & -> & _).
Qed.

Lemma same_line_sorted (k : Z) (es rest : list (Z * Z * string)) :
  Forall (λ e, e.1.1 = k) es →
  Forall (λ e, k ≤ e.1.1) rest →
  StronglySorted line_le rest →
  StronglySorted line_le (es ++ rest).
Proof.
  intros L F S. induction L as [|e es He L IH]; simpl; [done|].
  constructor; [done|]. apply Forall_app. split.
  - eapply Forall_impl; [exact L|]. unfold line_le. simpl. lia.
  - eapply Forall_impl; [exact F|]. unfold line_le. simpl. lia.
Qed.

Lemma flat_map_sorted (items : list (Z * list (Z * string))) :
  StronglySorted (key_le fst) items →
  StronglySorted line_le (flat_map item_entries items).
Proof.
  induction 1 as [|item items S IH F]; simpl; [constructor|].
  apply (same_line_sorted item.1); [apply item_entries_line| |done].
  apply Forall_forall. intros e' He'.
  apply list_elem_of_In, in_flat_map in He' as (item' & Hi & He').
  apply list_elem_of_In in Hi, He'.
  rewrite Forall_forall in F. specialize (F _ Hi).
  pose proof (item_entries_line item') as L'.
  rewrite Forall_forall in L'. specialize (L' _ He').
  unfold key_le in F. lia.
Qed.

Lemma linter_entries_sorted (l : Linter) :
  StronglySorted line_le (linter_entries l).
Proof. apply flat_map_sorted, sort_by_sorted. Qed.

Lemma filter_item_other (line : Z) (item : Z * list (Z * string)) :
  item.1 ≠ line →
  filter (λ e : Z * Z * string, e.1.1 = line) (item_entries item) = [].
Proof.
  intros N. pose proof (item_entries_line item) as L.
  induction L as [|e es He _ IH]; [done|].
  rewrite filter_cons, IH. case_decide; [congruence|done].
Qed.

Lemma filter_item_same (item : Z * list (Z * string)) :
  filter (λ e : Z * Z * string, e.1.1 = item.1) (item_entries item)
  = item_entries item.
Proof.
  pose proof (item_entries_line item) as L.
  induction L as [|e es He _ IH]; [done|].
  rewrite filter_cons, IH. case_decide; [done|congruence].
Qed.

Lemma filter_flat_map (line : Z) (errs : list (Z * string))
    (items : list (Z * list (Z * string))) :
  NoDup items.*1 → (line, errs) ∈ items →
  filter (λ e : Z * Z * string, e.1.1 = line) (flat_map item_entries items)
  = item_entries (line, errs).
Proof.
  induction items as [|item items IH]; simpl; intros ND I.
  - by apply elem_of_nil in I.
  - apply NoDup_cons in ND as [NI ND]. rewrite filter_app.
    apply elem_of_cons in I as [<-|I].
    + pose proof (filter_item_same (line, errs)) as Same.
      cbn [fst] in Same. rewrite Same. clear Same.
      assert (filter (λ e : Z * Z * string, e.1.1 = line)
                (flat_map item_entries items) = []) as ->;
        [|by rewrite app_nil_r].
      clear IH ND. induction items as [|item' items IH]; simpl; [done|].
      rewrite filter_app, filter_item_other, IH; [done| |].
      * intros I. apply NI. rewrite fmap_cons. apply elem_of_cons. by right.
      * intros E. apply NI. rewrite fmap_cons. apply elem_of_cons. by left.
    + rewrite filter_item_other, IH; [done..|].
      intros E. apply NI. apply list_elem_of_fmap. by exists (line, errs).
Qed.

Lemma sorted_items_NoDup {V} (d : gmap Z V) : NoDup (sorted_items d).*1.
Proof.
  unfold sorted_items. rewrite sort_by_perm. apply NoDup_fst_map_to_list.
Qed.

Lemma elem_of_sorted_items {V} (d : gmap Z V) (k : Z) (x : V) :
  (k, x) ∈ sorted_items d ↔ d !! k = Some x.
Proof.
  unfold sorted_items. rewrite sort_by_perm. apply elem_of_map_to_list.
Qed.

Lemma linter_entries_of_line (l : Linter) (line : Z) (errs : list (Z * string)) :
  errors l !! line = Some errs →
  filter (λ e : Z * Z * string, e.1.1 = line) (linter_entries l)
  = map (λ entry, (line, entry.1, entry.2)) errs.
Proof.
  intros H. unfold linter_entries.
  rewrite (filter_flat_map line errs); [done|apply sorted_items_NoDup|].
  by apply elem_of_sorted_items.
Qed.

Lemma linter_entries_elem (l : Linter) (line col : Z) (message : string) :
  (line, col, message) ∈ linter_entries l ↔
  ∃ errs, errors l !! line = Some errs ∧ (col, message) ∈ errs.
Proof.
  unfold linter_entries. rewrite list_elem_of_In, in_flat_map. split.
  - intros ([k errs] & I & E). apply list_elem_of_In in I, E.
    apply elem_of_sorted_items in I. unfold item_entries in E.
    apply list_elem_of_fmap in E as ([c m] & [= -> -> ->] & E). eauto.
  - intros (errs & H & E). exists (line, errs). split; apply list_elem_of_In.
    + by apply elem_of_sorted_items.
    + unfold item_entries. apply list_elem_of_fmap. by exists (col, message).
Qed.

(** ** The folder walk *)

Lemma folder_files (st_size : string → Z) (root : string)
    (files : list string) (acc : list string) :
  foldl (λ acc name,
      let path := path_join root name in
      if small_enough (st_size path) then acc ++ [path] else acc)
    acc files
  = acc ++ filter (λ p, small_enough (st_size p) = true)
             (map (path_join root) files).
Proof.
  revert acc. induction files as [|name files IH]; intros acc; simpl.
  - by rewrite app_nil_r.
  - rewrite IH, filter_cons. destruct (small_enough _) eqn:S.
    + rewrite decide_True by done. by rewrite <- app_assoc.
    + by rewrite decide_False by done.
Qed.

Lemma folder_elem (walk : list (string * list string * list string))
    (st_size : string → Z) (path : string) :
  path ∈ folder walk st_size ↔
  small_enough (st_size path) = true ∧
  ∃ root dirs files name,
    (root, dirs, files) ∈ walk ∧ name ∈ files ∧ path = path_join root name.
Proof.
  unfold folder.
  assert (∀ acc,
    path ∈ foldl (λ acc entry,
        foldl (λ acc name,
            let path := path_join entry.1.1 name in
            if small_enough (st_size path) then acc ++ [path] else acc)
          acc entry.2) acc walk
    ↔ path ∈ acc ∨ (small_enough (st_size path) = true ∧
        ∃ root dirs files name,
          (root, dirs, files) ∈ walk ∧ name ∈ files
          ∧ path = path_join root name)) as G.
  { induction walk as [|[[root dirs] files] walk IH]; intros acc; simpl.
    - split; [by left|]. intros [?|(_ & ? & ? & ? & ? & I & _)]; [done|].
      by apply elem_of_nil in I.
    - rewrite IH, folder_files, elem_of_app, list_elem_of_filter,
        list_elem_of_fmap.
      split.
      + intros [[?|[S (name & -> & I)]]|(S & r & d & f & n & I & ? & ?)].
        * by left.
        * right. split; [done|]. exists root, dirs, files, name.
          repeat split; [by left|done].
        * right. split; [done|]. exists r, d, f, n. repeat split; [by right|done..].
      + intros [?|(S & r & d & f & n & I & ? & ?)]; [by left; left|].
        apply elem_of_cons in I as [[= -> -> ->]|I].
        * left. right. split; [done|]. by exists n.
        * right. split; [done|]. by exists r, d, f, n. }
  rewrite G. split; [|by right]. intros [I|?]; [|done]. by apply elem_of_nil in I.
Qed.

(** ** Sample runs *)

(** From a caret at 5 the next region is the one at 10, the previous one
    the one at 0. *)
Example next_from_5 :
  ∃ w', find_error true (sample_world [Region.mk 5 5] None)
        = Ok (Some (Region.mk 10 12), w')
        ∧ sel (view w') = [Region.mk 10 12].
Proof. eexists. split; reflexivity. Qed.

Example previous_from_5 :
  ∃ w', find_error false (sample_world [Region.mk 5 5] None)
        = Ok (Some (Region.mk 0 2), w')
        ∧ sel (view w') = [Region.mk 0 2].
Proof. eexists. split; reflexivity. Qed.

(** From a caret at the begin of the region at 10 the next region is the
    one at 20. *)
Example next_from_10 :
  ∃ w', find_error true (sample_world [Region.mk 10 10] None)
        = Ok (Some (Region.mk 20 25), w').
Proof. eexists. reflexivity. Qed.

(** After the last region: back to the first one, or nowhere when the
    setting says so. *)
Example next_from_40_wraps :
  ∃ w', find_error true (sample_world [Region.mk 40 40] None)
        = Ok (Some (Region.mk 0 2), w').
Proof. eexists. reflexivity. Qed.

Example next_from_40_without_wrap :
  find_error true (sample_world [Region.mk 40 40] (Some false))
  = Ok (None, mkWorld (sample_view [Region.mk 40 40])
                (Some {[ 0 := ["E"] ]}) (Some false)
                ["No next lint errors."]).
Proof. reflexivity. Qed.

(** Two marks that overlap are scanned as one region; the mark selected
    is the first of the two. *)
Example overlapping_marks :
  regions_of (mkView [] [Region.mk 10 12] [Region.mk 11 13] None)
  = [Region.mk 10 13]
  ∧ ∃ w', find_error true
            (mkWorld (mkView [] [Region.mk 10 12] [Region.mk 11 13] None)
               (Some {[ 0 := ["E"] ]}) None [])
          = Ok (Some (Region.mk 10 13), w')
          ∧ sel (view w') = [Region.mk 10 12].
Proof. split; [reflexivity|]. eexists. split; reflexivity. Qed.

(** Paths and names. *)
Example path_join_samples :
  path_join "src" "a.py" = "src/a.py"
  ∧ path_join "src/" "a.py" = "src/a.py"
  ∧ path_join "src" "/a.py" = "/a.py"
  ∧ basename "/home/me/a.py" = "a.py"
  ∧ basename "a.py" = "a.py"
  ∧ basename "dir/" = "".
Proof. repeat split. Qed.

(** A report of two linters: the lines of each are sorted, the two
    groups are not merged. *)
Example report_of_two_linters :
  insert [mkLinter (Some "/tmp/a.py") {[ 9 := [(0, "late")] ]};
          mkLinter (Some "/tmp/a.py") {[ 2 := [(0, "early")] ]}] ""
  = Ok (nl +:+ "a.py:" +:+ nl +:+ "  9: late" +:+ nl +:+ "  2: early" +:+ nl).
Proof. by vm_compute. Qed.

(** * The claims *)

(** C1: the directional scan of [find_error].  Forward, the point is the
    begin of the first span of the selection and the region returned is
    the first one, in index order, whose begin is strictly greater;
    backward, the point is the end of the last span and the region
    returned is the first one, in reverse index order, whose end is
    strictly less.  A region that begins exactly at the forward point is
    never the result of the scan. *)
Theorem find_error_directional_scan (forward : bool) (w : World) :
  let point := anchor forward (sel (view w)) in
  let regions := regions_of (view w) in
  (∀ first rest, sel (view w) = first :: rest → forward = true →
     point = Region.begin first)
  ∧ (∀ front last, sel (view w) = front ++ [last] → forward = false →
     point = Region.end_ last)
  ∧ (∀ r, scan forward point regions = Some r ↔
       ∃ l1 l2, regions = l1 ++ r :: l2 ∧
         if forward
         then point < Region.begin r
              ∧ Forall (λ x, ¬ point < Region.begin x) l1
         else Region.end_ r < point
              ∧ Forall (λ x, ¬ Region.end_ x < point) l2)
  ∧ (∀ r, scan forward point regions = Some r →
       ∃ w', find_error forward w = Ok (Some r, w'))
  ∧ (∀ r, forward = true → Region.begin r = point →
       scan forward point regions ≠ Some r).
Proof.
  cbv zeta. repeat split.
  - intros first rest E ->. by rewrite E.
  - intros front last E ->. rewrite E. unfold anchor.
    rewrite bool_decide_eq_false_2 by (rewrite length_app; cbn [length]; lia).
    by rewrite last_snoc.
  - destruct forward.
    + rewrite scan_forward_first. intros (l1 & l2 & ?). by exists l1, l2.
    + rewrite scan_backward_first. intros (l1 & l2 & ?). by exists l1, l2.
  - destruct forward.
    + rewrite scan_forward_first. intros (l1 & l2 & ?). by exists l1, l2.
    + rewrite scan_backward_first. intros (l1 & l2 & ?). by exists l1, l2.
  - intros r S. rewrite find_error_eq. cbv zeta.
    rewrite (choose_scan _ _ _ _ r S). cbn [bind]. by eexists.
  - intros r -> E S. apply scan_forward_first in S as (_ & _ & _ & L & _). lia.
Qed.

(** C2: with a single region and the point inside it, the search fails
    instead of wrapping to that region, whatever the wrap setting. *)
Theorem sole_region_is_not_wrapped_to (forward : bool) (w : World) (r : Region) :
  regions_of (view w) = [r] →
  Region.contains_point r (anchor forward (sel (view w))) = true →
  ∃ w', find_error forward w = Ok (None, w')
        ∧ messages w' = messages w ++ [no_more_message forward].
Proof.
  intros R C. rewrite find_error_eq. cbv zeta. rewrite R.
  rewrite choose_sole_inside by done. cbn [bind]. by eexists.
Qed.

Lemma sole_region_is_not_wrapped_to_witness :
  settings_get_wrap_find (sole_world [Region.mk 1 1]) = true
  ∧ ∃ w', find_error true (sole_world [Region.mk 1 1]) = Ok (None, w')
          ∧ messages w' = [] ++ [no_more_message true].
Proof.
  split; [reflexivity|].
  apply (sole_region_is_not_wrapped_to true (sole_world [Region.mk 1 1])
           (Region.mk 0 3)); reflexivity.
Defined.

(** C3, as the code has it: the regions scanned are the selection built
    by adding the warning marks and then the error marks; the selection
    keeps them sorted by begin and merges the ones that intersect, and it
    is the warnings followed by the errors only when that sequence is
    already a well-formed selection. *)
Theorem regions_are_a_sorted_merge (v : View) :
  StronglySorted (key_le Region.begin) (regions_of v)
  ∧ Selection.wf (regions_of v) = true
  ∧ (∀ m, m ∈ warning_marks v ++ error_marks v →
       covered_by (regions_of v) m)
  ∧ (Selection.wf (warning_marks v ++ error_marks v) = true →
       regions_of v = warning_marks v ++ error_marks v).
Proof.
  unfold regions_of. cbn [get_regions]. repeat split.
  - do 2 apply add_all_sorted. constructor.
  - by do 2 apply add_all_wf_preserved.
  - intros m I. rewrite <- add_all_app. by apply add_all_covers.
  - intros W. rewrite <- add_all_app. by apply add_all_restore.
Qed.

(** C3, as stated, fails: a warning at 10-12 and an error at 0-2 are
    scanned error first. *)
Lemma regions_are_not_warnings_then_errors :
  StronglySorted (key_le Region.begin) (warning_marks error_first_view)
  ∧ StronglySorted (key_le Region.begin) (error_marks error_first_view)
  ∧ regions_of error_first_view = [Region.mk 0 2; Region.mk 10 12]
  ∧ regions_of error_first_view
    ≠ warning_marks error_first_view ++ error_marks error_first_view.
Proof.
  repeat split; [repeat constructor..|discriminate].
Qed.

Lemma error_command_no_errors (f : World → result World) (w : World) :
  persist_errors w = None ∨ persist_errors w = Some ∅ →
  error_command f w = Ok (error_message "No lint errors." w).
Proof.
  unfold error_command. intros [->| ->]; [done|].
  by rewrite bool_decide_eq_false_2 by (intros N; by apply N).
Qed.


Lemma find_error_no_regions (forward : bool) (w : World) :
  regions_of (view w) = [] → find_error forward w = Raise IndexError.
Proof.
  intros R. rewrite find_error_eq. cbv zeta. by rewrite R, choose_nil.
Qed.

Lemma restored (w : World) (m : string) :
  Selection.wf (sel (view w)) = true →
  error_message m
    (set_view (set_sel (Selection.add_all (sel (view w)) []) (view w)) w)
  = error_message m w.
Proof.
  intros W. rewrite add_all_restore by done. by destruct w as [[]].
Qed.

Lemma find_error_failure (forward : bool) (w w' : World) :
  find_error forward w = Ok (None, w') →
  w' = error_message (no_more_message forward)
         (set_view (set_sel (Selection.add_all (sel (view w)) []) (view w)) w).
Proof.
  rewrite find_error_eq. cbv zeta.
  destruct (choose _ _ _ _) as [[r|]|e]; cbn [bind];
    [discriminate | by intros [= <-] | discriminate].
Qed.

Lemma find_error_fails (forward : bool) (w : World) :
  Selection.wf (sel (view w)) = true →
  choose forward (settings_get_wrap_find w) (anchor forward (sel (view w)))
    (regions_of (view w)) = Ok None →
  find_error forward w = Ok (None, error_message (no_more_message forward) w).
Proof.
  intros W C. rewrite find_error_eq. cbv zeta. rewrite C. cbn [bind].
  by rewrite restored.
Qed.

(** [find_error] hands back a well-formed selection. *)
Lemma find_error_keeps_wf (forward : bool) (w w' : World) (r : option Region) :
  Selection.wf (sel (view w)) = true →
  find_error forward w = Ok (r, w') →
  Selection.wf (sel (view w')) = true.
Proof.
  intros W. rewrite find_error_eq. cbv zeta.
  destruct (choose _ _ _ _) as [[c|]|e]; cbn [bind]; [| |done].
  - intros [= _ <-]. unfold select_lint_region. cbv zeta.
    by destruct (find_mark_within _ _).
  - intros [= _ <-]. rewrite restored by done. by destruct w.
Qed.



(** Where [find_error] does return [None], the restore and the
    messages are as C5 says: the call leaves the world as it was but for
    one more message, "No next lint errors." or "No previous lint
    errors."; that happens when wrapping is switched off and when it is
    held back for the sole region.  The view without errors gets the
    other message, "No lint errors.", from the guard. *)
Theorem navigation_failure_restores (forward : bool) (w : World) :
  Selection.wf (sel (view w)) = true →
  (∀ w', find_error forward w = Ok (None, w') →
     w' = error_message (no_more_message forward) w
     ∧ sel (view w') = sel (view w))
  ∧ (∀ r rest, regions_of (view w) = r :: rest →
       scan forward (anchor forward (sel (view w))) (r :: rest) = None →
       settings_get_wrap_find w = false →
       find_error forward w
       = Ok (None, error_message (no_more_message forward) w))
  ∧ (∀ r, regions_of (view w) = [r] →
       Region.contains_point r (anchor forward (sel (view w))) = true →
       find_error forward w
       = Ok (None, error_message (no_more_message forward) w))
  ∧ (persist_errors w = None ∨ persist_errors w = Some ∅ →
       next_error_run w = Ok (error_message "No lint errors." w)
       ∧ previous_error_run w = Ok (error_message "No lint errors." w))
  ∧ no_more_message forward ≠ "No lint errors.".
Proof.
  intros W. split; [|split; [|split; [|split]]].
  - intros w' F. apply find_error_failure in F.
    rewrite restored in F by done. by subst w'.
  - intros r rest R S Wr. apply find_error_fails; [done|].
    rewrite R, Wr. by apply choose_no_wrap.
  - intros r R C. apply find_error_fails; [done|].
    rewrite R. by apply choose_sole_inside.
  - intros E. split; by apply error_command_no_errors.
  - by destruct forward.
Qed.

Lemma navigation_failure_restores_witness :
  Selection.wf (sel (view (sample_world [Region.mk 40 40] (Some false)))) = true
  ∧ find_error true (sample_world [Region.mk 40 40] (Some false))
    = Ok (None, error_message "No next lint errors."
                  (sample_world [Region.mk 40 40] (Some false))).
Proof.
  split; [reflexivity|].
  destruct (navigation_failure_restores true
              (sample_world [Region.mk 40 40] (Some false)) eq_refl)
    as (_ & NoWrap & _).
  by eapply NoWrap.
Defined.

(** C5, at the input where the code breaks it: errors recorded, no mark
    region, wrapping off.  No region is found and wrapping is disabled,
    the guard lets the command through, and [find_error] raises
    [IndexError] on [regions[0]] instead of reaching the branch that
    puts the selection back and shows the message; the command raises
    with it, in both directions. *)
Lemma find_error_without_regions_does_not_restore :
  persist_errors unmarked_world_no_wrap = Some {[ 0 := ["E"] ]}
  ∧ Selection.wf (sel (view unmarked_world_no_wrap)) = true
  ∧ regions_of (view unmarked_world_no_wrap) = []
  ∧ settings_get_wrap_find unmarked_world_no_wrap = false
  ∧ scan true (anchor true (sel (view unmarked_world_no_wrap)))
      (regions_of (view unmarked_world_no_wrap)) = None
  ∧ scan false (anchor false (sel (view unmarked_world_no_wrap)))
      (regions_of (view unmarked_world_no_wrap)) = None
  ∧ find_error true unmarked_world_no_wrap = Raise IndexError
  ∧ find_error false unmarked_world_no_wrap = Raise IndexError
  ∧ next_error_run unmarked_world_no_wrap = Raise IndexError
  ∧ previous_error_run unmarked_world_no_wrap = Raise IndexError.
Proof. repeat split. Qed.

(** C6: with wrapping on and two regions or more, a scan that finds
    nothing ends on the first region when going forward and on the last
    one when going backward. *)
Theorem wrap_goes_to_first_or_last (forward : bool) (w : World)
    (first last : Region) (mid : list Region) :
  settings_get_wrap_find w = true →
  regions_of (view w) = first :: mid ++ [last] →
  scan forward (anchor forward (sel (view w))) (regions_of (view w)) = None →
  ∃ w', find_error forward w = Ok (Some (if forward then first else last), w').
Proof.
  intros Wr R S. rewrite find_error_eq. cbv zeta.
  rewrite R in *. rewrite Wr, choose_wrap by done. cbn [bind]. by eexists.
Qed.

Lemma wrap_goes_to_first_or_last_witness :
  ∃ w', find_error true (sample_world [Region.mk 40 40] None)
        = Ok (Some (Region.mk 0 2), w').
Proof.
  apply (wrap_goes_to_first_or_last true (sample_world [Region.mk 40 40] None)
           (Region.mk 0 2) (Region.mk 30 35)
           [Region.mk 10 12; Region.mk 20 25]); reflexivity.
Defined.

(** C7: [select_lint_region] leaves one span selected: the first mark, in
    the stable order of the marks by [begin], that lies within the
    region, or the empty span at the begin of the region when no mark
    does; a successful [find_error] ends in that state. *)
Theorem navigation_selects_first_mark (v : View) (region : Region) :
  let marks := sort_by Region.begin (warning_marks v ++ error_marks v) in
  StronglySorted (key_le Region.begin) marks
  ∧ marks ≡ₚ warning_marks v ++ error_marks v
  ∧ (∀ k, filter (λ m, Region.begin m = k) marks
          = filter (λ m, Region.begin m = k)
              (warning_marks v ++ error_marks v))
  ∧ (∀ l1 m l2, marks = l1 ++ m :: l2 →
       Forall (λ x, Region.contains region x = false) l1 →
       Region.contains region m = true →
       sel (select_lint_region region v) = [m]
       ∧ shown (select_lint_region region v) = Some m)
  ∧ (Forall (λ x, Region.contains region x = false) marks →
       sel (select_lint_region region v)
       = [Region.mk (Region.begin region) (Region.begin region)])
  ∧ (∀ forward w w', view w = v →
       find_error forward w = Ok (Some region, w') →
       view w' = select_lint_region region v).
Proof.
  cbv zeta. split; [|split; [|split; [|split; [|split]]]].
  - apply sort_by_sorted.
  - apply sort_by_perm.
  - intros k. apply sort_by_stable.
  - intros l1 m l2 E F C.
    assert (find_mark_within (set_sel [] v) region = Some m) as Found.
    { unfold find_mark_within. destruct v. cbn [get_regions set_sel
        warning_marks error_marks]. apply find_first. by exists l1, l2. }
    unfold select_lint_region. cbv zeta. by rewrite Found.
  - intros F.
    assert (find_mark_within (set_sel [] v) region = None) as Missing.
    { unfold find_mark_within. destruct v. cbn [get_regions set_sel
        warning_marks error_marks]. by apply find_nothing. }
    unfold select_lint_region. cbv zeta. by rewrite Missing.
  - intros forward w w' <-. rewrite find_error_eq. cbv zeta.
    destruct (choose _ _ _ _) as [[r|]|e]; cbn [bind]; [|done..].
    intros [= -> <-]. by rewrite select_lint_region_set_sel.
Qed.

(** C10: called with nothing selected, [find_error] scans from offset 0:
    going forward it returns the first region that begins after 0 and
    never, by the scan, one that begins at 0; when it fails the selection
    is empty again. *)
Theorem find_error_from_empty_selection (w : World) :
  sel (view w) = [] →
  anchor true (sel (view w)) = 0
  ∧ anchor false (sel (view w)) = 0
  ∧ (∀ l1 r l2, regions_of (view w) = l1 ++ r :: l2 →
       0 < Region.begin r →
       Forall (λ x, ¬ 0 < Region.begin x) l1 →
       ∃ w', find_error true w = Ok (Some r, w'))
  ∧ (∀ r, Region.begin r = 0 → scan true 0 (regions_of (view w)) ≠ Some r)
  ∧ (∀ forward w', find_error forward w = Ok (None, w') →
       sel (view w') = []
       ∧ w' = error_message (no_more_message forward) w).
Proof.
  intros E. rewrite E. split; [done|]. split; [done|]. split; [|split].
  - intros l1 r l2 R B F. rewrite find_error_eq. cbv zeta. rewrite E.
    change (anchor true []) with 0.
    rewrite (choose_scan _ _ _ _ r); [cbn [bind]; by eexists|].
    apply scan_forward_first. by exists l1, l2.
  - intros r B S. apply scan_forward_first in S as (_ & _ & _ & L & _). lia.
  - intros forward w' F. apply find_error_failure in F.
    rewrite restored in F by by rewrite E. subst w'.
    split; [|done]. cbn [error_message view]. by rewrite E.
Qed.

Lemma find_error_from_empty_selection_witness :
  sel (view (sample_world [] None)) = []
  ∧ ∃ w', find_error true (sample_world [] None)
          = Ok (Some (Region.mk 10 12), w').
Proof.
  split; [reflexivity|].
  destruct (find_error_from_empty_selection (sample_world [] None) eq_refl)
    as (_ & _ & Forward & _).
  apply (Forward [Region.mk 0 2] (Region.mk 10 12)
           [Region.mk 20 25; Region.mk 30 35]).
  - reflexivity.
  - reflexivity.
  - repeat constructor. unfold Region.begin. simpl. lia.
Defined.

Lemma existsb_has_errors_false (linters : list Linter) :
  existsb has_errors linters = false ↔ Forall (λ l, errors l = ∅) linters.
Proof.
  induction linters as [|l linters IH]; simpl.
  - split; [constructor|done].
  - rewrite orb_false_iff, IH, Forall_cons. unfold has_errors.
    rewrite bool_decide_eq_false. split; intros [E F]; (split; [|done]).
    + by apply dec_stable.
    + intros N. by apply N.
Qed.

Lemma finish_lint_alone (linters : list Linter) (t : string) :
  linters ≠ [] →
  finish_lint linters (mkOutput t [])
  = (let! t' := insert linters t in Ok (mkOutput t' [])).
Proof.
  intros N. unfold finish_lint. by rewrite bool_decide_eq_false_2.
Qed.

(** C8, as the code has it: a lint run whose linters all have no errors
    adds nothing to the output; otherwise it adds one fragment, the
    header with the base name of the first linter's file (or "untitled")
    followed by one line per entry, linter after linter, the entries of a
    linter by ascending line and, within a line, in the order the linter
    lists them.  For the errors 3: x and 7: y, z that makes three lines,
    the number 7 written on each of its two. *)
Theorem report_fragment (linters : list Linter) (t : string) :
  (Forall (λ l, errors l = ∅) linters →
     finish_lint linters (mkOutput t []) = Ok (mkOutput t []))
  ∧ (∀ first rest, linters = first :: rest →
       ¬ Forall (λ l, errors l = ∅) linters →
       finish_lint linters (mkOutput t [])
       = Ok (mkOutput
               (t +:+ header first
                  +:+ joined (map entry_text (report_entries linters))) []))
  ∧ Forall (λ l,
       StronglySorted line_le (linter_entries l)
       ∧ (∀ line errs, errors l !! line = Some errs →
            filter (λ e : Z * Z * string, e.1.1 = line) (linter_entries l)
            = map (λ entry, (line, entry.1, entry.2)) errs)
       ∧ (∀ line col message,
            (line, col, message) ∈ linter_entries l ↔
            ∃ errs, errors l !! line = Some errs ∧ (col, message) ∈ errs))
     linters
  ∧ finish_lint [example_linter] (mkOutput t [])
    = Ok (mkOutput
            (t +:+ nl +:+ "untitled:" +:+ nl
               +:+ "  3: x" +:+ nl +:+ "  7: y" +:+ nl +:+ "  7: z" +:+ nl) []).
Proof.
  split; [|split; [|split]].
  - intros F. destruct linters as [|l linters]; [done|].
    rewrite finish_lint_alone by done.
    by rewrite insert_clean by by apply existsb_has_errors_false.
  - intros first rest -> N. rewrite finish_lint_alone by done.
    rewrite insert_fragment; [done|].
    rewrite <- existsb_has_errors_false in N. by destruct (existsb _ _).
  - apply Forall_forall. intros l _. split; [|split].
    + apply linter_entries_sorted.
    + apply linter_entries_of_line.
    + apply linter_entries_elem.
  - rewrite finish_lint_alone by done.
    rewrite insert_fragment by reflexivity. cbn [bind]. by f_equal.
Qed.

(** C8, as stated, fails: the example gives three lines after the
    header, not two, and the line number 7 is written twice. *)
Lemma example_report_has_three_lines :
  finish_lint [example_linter] (mkOutput "" [])
  = Ok (mkOutput
          (nl +:+ "untitled:" +:+ nl
             +:+ "  3: x" +:+ nl +:+ "  7: y" +:+ nl +:+ "  7: z" +:+ nl) [])
  ∧ map entry_text (report_entries [example_linter])
    = ["  3: x" +:+ nl; "  7: y" +:+ nl; "  7: z" +:+ nl]
  ∧ length (report_entries [example_linter]) ≠ 2%nat.
Proof. split; [|split]; [by vm_compute..|]. vm_compute. lia. Qed.

(** C9: the size test of the folder walk lets a file of 256 KiB - 1
    bytes through and stops every file of 256 KiB or more. *)
Theorem folder_size_threshold
    (walk : list (string * list string * list string))
    (st_size : string → Z) (root name : string) (dirs files : list string) :
  (root, dirs, files) ∈ walk → name ∈ files →
  small_enough (256 * 1024 - 1) = true
  ∧ (∀ size, 256 * 1024 ≤ size → small_enough size = false)
  ∧ (st_size (path_join root name) = 256 * 1024 - 1 →
       path_join root name ∈ folder walk st_size)
  ∧ (256 * 1024 ≤ st_size (path_join root name) →
       path_join root name ∉ folder walk st_size).
Proof.
  intros W F. split; [done|]. split; [|split].
  - intros size L. unfold small_enough. by rewrite bool_decide_eq_false_2 by lia.
  - intros S. apply folder_elem. split; [by rewrite S|].
    by exists root, dirs, files, name.
  - intros L I. apply folder_elem in I as [S _].
    unfold small_enough in S. apply bool_decide_eq_true in S. lia.
Qed.

Lemma folder_size_threshold_witness :
  "src/small.py" ∈ folder example_walk example_sizes
  ∧ "src/large.py" ∉ folder example_walk example_sizes.
Proof.
  split.
  - apply (folder_size_threshold example_walk example_sizes
             "src" "small.py" [] ["small.py"; "large.py"]).
    + by left.
    + by left.
    + reflexivity.
  - apply (folder_size_threshold example_walk example_sizes
             "src" "large.py" [] ["small.py"; "large.py"]).
    + by left.
    + right. by left.
    + vm_compute. discriminate.
Defined.

(** * Further properties *)

(** ** The list of all errors *)

Lemma pairs_ind {A} (P : list A → Prop) :
  P [] → (∀ x, P [x]) → (∀ x y l, P l → P (x :: y :: l)) → ∀ l, P l.
Proof.
  intros P0 P1 P2 l.
  assert (P l ∧ ∀ x, P (x :: l)) as [H _]; [|done].
  induction l as [|y l [IH1 IH2]]; [by split|].
  split; [apply IH2|]. intros x. by apply P2.
Qed.

Lemma concat_chunks2 {A} (l : list A) : concat (chunks2 l) = l.
Proof. induction l as [|x|x y l IH] using pairs_ind; simpl; by rewrite ?IH. Qed.

Lemma chunks2_shape {A} (l : list A) :
  Forall (λ c, 1 ≤ length c ≤ 2)%nat (chunks2 l).
Proof.
  induction l as [|x|x y l IH] using pairs_ind; simpl.
  - constructor.
  - repeat constructor.
  - constructor; [simpl; lia | done].
Qed.

Lemma chunks2_nil {A} (l : list A) : chunks2 l = [] ↔ l = [].
Proof. by destruct l. Qed.

Lemma all_errors_line_rows (head : string) (lineno : Z)
    (messages : list string) (acc : list (list string) * list Z) :
  all_errors_line head lineno messages acc
  = (acc.1 ++ map (λ row, head :: row.2) (item_rows (lineno, messages)),
     acc.2 ++ map fst (item_rows (lineno, messages))).
Proof.
  unfold item_rows. cbn [fst snd]. revert acc.
  induction messages as [|x|x y l IH] using pairs_ind; intros [os ls].
  - simpl. by rewrite !app_nil_r.
  - reflexivity.
  - cbn [all_errors_line chunks2]. rewrite IH. cbn [fst snd map take].
    by rewrite <- !app_assoc.
Qed.

Lemma all_errors_rows (b : Buffer) (errors : gmap Z (list string)) :
  all_errors b errors
  = (map (λ row, option_head b row.1 :: row.2) (panel_rows errors),
     map fst (panel_rows errors)).
Proof.
  unfold all_errors, panel_rows.
  assert (∀ items acc,
    foldl (λ acc item,
        all_errors_line (option_head b item.1) item.1 item.2 acc) acc items
    = (acc.1 ++ map (λ row, option_head b row.1 :: row.2)
                  (flat_map item_rows items),
       acc.2 ++ map fst (flat_map item_rows items))) as G.
  { induction items as [|[k ms] items IH]; intros [os ls]; simpl.
    - by rewrite !app_nil_r.
    - rewrite IH, all_errors_line_rows. cbn [fst snd].
      rewrite !map_app, <- !app_assoc. do 2 f_equal.
      f_equal. unfold item_rows. cbn [fst snd]. rewrite !map_map.
      by apply map_ext. }
  by rewrite G.
Qed.

Lemma item_rows_line (item : Z * list string) :
  Forall (λ row, row.1 = item.1) (item_rows item).
Proof.
  unfold item_rows. apply Forall_forall. intros row.
  rewrite list_elem_of_fmap. by intros (? & -> & _).
Qed.

Section keyed.
Context {V B : Type} (f : Z * V → list B) (key : B → Z).
Hypothesis f_key : ∀ item, Forall (λ e, key e = item.1) (f item).

Lemma filter_keyed_other (line : Z) (item : Z * V) :
  item.1 ≠ line → filter (λ e, key e = line) (f item) = [].
Proof.
  intros N. pose proof (f_key item) as L.
  induction L as [|e es He _ IH]; [done|].
  rewrite filter_cons, IH. case_decide; [congruence|done].
Qed.

Lemma filter_keyed_same (item : Z * V) :
  filter (λ e, key e = item.1) (f item) = f item.
Proof.
  pose proof (f_key item) as L.
  induction L as [|e es He _ IH]; [done|].
  rewrite filter_cons, IH. case_decide; [done|congruence].
Qed.

Lemma filter_keyed (line : Z) (x : V) (items : list (Z * V)) :
  NoDup items.*1 → (line, x) ∈ items →
  filter (λ e, key e = line) (flat_map f items) = f (line, x).
Proof.
  induction items as [|item items IH]; simpl; intros ND I.
  - by apply elem_of_nil in I.
  - apply NoDup_cons in ND as [NI ND]. rewrite filter_app.
    apply elem_of_cons in I as [<-|I].
    + pose proof (filter_keyed_same (line, x)) as Same.
      cbn [fst] in Same. rewrite Same. clear Same.
      assert (filter (λ e, key e = line) (flat_map f items) = []) as ->;
        [|by rewrite app_nil_r].
      clear IH ND. induction items as [|item' items IH]; simpl; [done|].
      rewrite filter_app, filter_keyed_other, IH; [done| |].
      * intros I. apply NI. rewrite fmap_cons. apply elem_of_cons. by right.
      * intros E. apply NI. rewrite fmap_cons. apply elem_of_cons. by left.
    + rewrite filter_keyed_other, IH; [done..|].
      intros E. apply NI. apply list_elem_of_fmap. by exists (line, x).
Qed.

Lemma flat_map_keyed_sorted (items : list (Z * V)) :
  StronglySorted (key_le fst) items →
  StronglySorted (key_le key) (flat_map f items).
Proof.
  induction 1 as [|item items S IH F]; simpl; [constructor|].
  pose proof (f_key item) as L.
  induction L as [|e es He L' IHes]; simpl; [done|].
  constructor; [done|]. apply Forall_app. split.
  - eapply Forall_impl; [exact L'|]. unfold key_le. simpl. lia.
  - apply Forall_forall. intros e' He'.
    apply list_elem_of_In, in_flat_map in He' as (item' & Hi & He').
    apply list_elem_of_In in Hi, He'.
    rewrite Forall_forall in F. specialize (F _ Hi).
    pose proof (f_key item') as K. rewrite Forall_forall in K.
    specialize (K _ He'). unfold key_le in *. lia.
Qed.
End keyed.

Lemma panel_rows_elem (errors : gmap Z (list string)) (row : Z * list string) :
  row ∈ panel_rows errors ↔
  ∃ ms, errors !! row.1 = Some ms ∧ row.2 ∈ chunks2 ms.
Proof.
  unfold panel_rows. rewrite list_elem_of_In, in_flat_map. split.
  - intros ([k ms] & I & E). apply list_elem_of_In in I, E.
    apply elem_of_sorted_items in I. unfold item_rows in E.
    apply list_elem_of_fmap in E as (c & -> & E). eauto.
  - intros (ms & H & E). destruct row as [k c]. exists (k, ms).
    split; apply list_elem_of_In.
    + by apply elem_of_sorted_items.
    + unfold item_rows. apply list_elem_of_fmap. by exists c.
Qed.

(** X1: [options] and [option_to_line] go in step: they have the same
    length, and the option at an index is headed by the 1-based number
    and the stripped text of the line at that index, a line of [errors],
    followed by one or two of its messages. *)
Theorem all_errors_options_match_lines (b : Buffer)
    (errors : gmap Z (list string)) :
  length (all_errors b errors).1 = length (all_errors b errors).2
  ∧ ∀ (i : nat) option line,
      (all_errors b errors).1 !! i = Some option →
      (all_errors b errors).2 !! i = Some line →
      ∃ ms shown,
        errors !! line = Some ms
        ∧ option = option_head b line :: shown
        ∧ (1 ≤ length shown ≤ 2)%nat
        ∧ shown ∈ chunks2 ms.
Proof.
  rewrite all_errors_rows. cbn [fst snd]. split.
  - by rewrite !length_map.
  - intros i option line. rewrite !list_lookup_fmap.
    destruct (panel_rows errors !! i) as [[k c]|] eqn:R; [|done].
    intros [= <-] [= <-].
    apply list_elem_of_lookup_2, panel_rows_elem in R as (ms & H & E).
    exists ms, c. repeat split; [done|..|done].
    all: pose proof (chunks2_shape ms) as S; rewrite Forall_forall in S;
      specialize (S _ E); cbn [snd] in *; lia.
Qed.

Lemma zip_rows (b : Buffer) (rows : list (Z * list string)) :
  zip (map (λ row, option_head b row.1 :: row.2) rows) (map fst rows)
  = map (λ row, (option_head b row.1 :: row.2, row.1)) rows.
Proof. induction rows as [|row rows IH]; simpl; [done|]. by rewrite IH. Qed.

(** X2: no message is lost, repeated or moved: for every line of
    [errors], the options of that line, taken in order and without their
    heads, give back the messages of the line. *)
Theorem all_errors_keeps_messages (b : Buffer) (errors : gmap Z (list string))
    (line : Z) (ms : list string) :
  errors !! line = Some ms →
  concat (map (λ p, drop 1 p.1)
            (filter (λ p : list string * Z, p.2 = line)
               (zip (all_errors b errors).1 (all_errors b errors).2)))
  = ms.
Proof.
  intros H. rewrite all_errors_rows. cbn [fst snd]. rewrite zip_rows.
  assert (∀ rows : list (Z * list string),
    map (λ p : list string * Z, drop 1 p.1)
      (filter (λ p : list string * Z, p.2 = line)
         (map (λ row, (option_head b row.1 :: row.2, row.1)) rows))
    = map snd (filter (λ row : Z * list string, row.1 = line) rows)) as ->.
  { induction rows as [|row rows IH]; [done|].
    cbn [map]. rewrite !filter_cons. cbn [snd].
    case_decide; [|done]. cbn [map fst snd drop]. by rewrite IH. }
  unfold panel_rows.
  rewrite (filter_keyed item_rows fst item_rows_line line ms);
    [|apply sorted_items_NoDup|by apply elem_of_sorted_items].
  unfold item_rows. cbn [fst snd]. rewrite map_map. cbn [snd].
  rewrite map_id. apply concat_chunks2.
Qed.

Lemma all_errors_keeps_messages_witness :
  concat (map (λ p, drop 1 p.1)
            (filter (λ p : list string * Z, p.2 = 4)
               (zip (all_errors (mkBuffer (λ _, "text") (λ _, Region.mk 0 0))
                       {[ 4 := ["a"; "b"; "c"]; 1 := ["d"] ]}).1
                    (all_errors (mkBuffer (λ _, "text") (λ _, Region.mk 0 0))
                       {[ 4 := ["a"; "b"; "c"]; 1 := ["d"] ]}).2)))
  = ["a"; "b"; "c"].
Proof.
  apply (all_errors_keeps_messages
           (mkBuffer (λ _, "text") (λ _, Region.mk 0 0))
           {[ 4 := ["a"; "b"; "c"]; 1 := ["d"] ]} 4 ["a"; "b"; "c"]).
  reflexivity.
Defined.

(** X3: the options come in ascending order of their lines, and the
    panel is empty exactly when no line has a message, which an
    [errors] that is not empty can still be. *)
Theorem all_errors_order_and_emptiness (b : Buffer)
    (errors : gmap Z (list string)) :
  StronglySorted Z.le (all_errors b errors).2
  ∧ ((all_errors b errors).1 = [] ↔
     ∀ line ms, errors !! line = Some ms → ms = []).
Proof.
  rewrite all_errors_rows. cbn [fst snd]. split.
  - unfold panel_rows.
    pose proof (flat_map_keyed_sorted item_rows fst item_rows_line
                  (sorted_items errors) (sort_by_sorted fst _)) as S.
    induction S as [|row rows S IH F]; [constructor|].
    rewrite fmap_cons. constructor; [done|].
    apply Forall_fmap. eapply Forall_impl; [exact F|]. done.
  - split.
    + intros E line ms H. apply fmap_nil_inv in E.
      destruct ms as [|m ms]; [done|].
      assert ((line, take 2 (m :: ms)) ∈ panel_rows errors) as I.
      { apply panel_rows_elem. exists (m :: ms). split; [done|]. by left. }
      rewrite E in I. by apply elem_of_nil in I.
    + intros A. destruct (panel_rows errors) as [|[k c] rows] eqn:R; [done|].
      assert ((k, c) ∈ panel_rows errors) as I by (rewrite R; by left).
      apply panel_rows_elem in I as (ms & H & I). cbn [fst snd] in *.
      rewrite (A _ _ H) in I. by apply elem_of_nil in I.
Qed.

Lemma all_errors_lookup (b : Buffer) (errors : gmap Z (list string))
    (i : nat) (option : list string) :
  (all_errors b errors).1 !! i = Some option →
  ∃ line, (all_errors b errors).2 !! i = Some line
          ∧ head option = Some (option_head b line).
Proof.
  rewrite all_errors_rows. cbn [fst snd]. rewrite !list_lookup_fmap.
  destruct (panel_rows errors !! i) as [[k c]|]; [|done].
  intros [= <-]. by exists k.
Qed.

(** X4: [center_line] with -1, the answer of a panel that was
    dismissed, leaves the view alone; with the index of an option it
    never raises, and it selects and centers the line of that option,
    whatever was selected before, without touching the marks. *)
Theorem center_line_selects_the_option (b : Buffer)
    (errors : gmap Z (list string)) (v : View) :
  center_line b (all_errors b errors).2 (-1) v = Ok (v, None)
  ∧ ∀ (i : nat) option,
      (all_errors b errors).1 !! i = Some option →
      ∃ line v',
        (all_errors b errors).2 !! i = Some line
        ∧ head option = Some (option_head b line)
        ∧ center_line b (all_errors b errors).2 (Z.of_nat i) v
          = Ok (v', Some (line_region b line))
        ∧ sel v' = [line_region b line]
        ∧ warning_marks v' = warning_marks v
        ∧ error_marks v' = error_marks v.
Proof.
  split; [done|]. intros i option O.
  destruct (all_errors_lookup b errors i option O)
    as (line & L & H).
  exists line, (select_line b line v). repeat split; try done.
  unfold center_line. rewrite bool_decide_eq_true_2 by lia.
  unfold getitem at 1.
  rewrite (bool_decide_eq_false_2 (Z.of_nat i < 0)) by lia.
  apply lookup_lt_Some in L as Lt.
  rewrite bool_decide_eq_true_2 by lia.
  rewrite Nat2Z.id, L. cbn [bind]. by destruct v.
Qed.

(** ** Navigation *)

Lemma find_error_cases (forward : bool) (w w' : World) (res : option Region) :
  find_error forward w = Ok (res, w') →
  match res with
  | Some r =>
      choose forward (settings_get_wrap_find w)
        (anchor forward (sel (view w))) (regions_of (view w)) = Ok (Some r)
      ∧ w' = set_view (select_lint_region r (view w)) w
  | None =>
      choose forward (settings_get_wrap_find w)
        (anchor forward (sel (view w))) (regions_of (view w)) = Ok None
      ∧ w' = error_message (no_more_message forward)
               (set_view (set_sel (Selection.add_all (sel (view w)) [])
                            (view w)) w)
  end.
Proof.
  rewrite find_error_eq. cbv zeta.
  destruct (choose _ _ _ _) as [[r|]|e]; cbn [bind]; [| |done].
  - intros [= <- <-]. by rewrite select_lint_region_set_sel.
  - by intros [= <- <-].
Qed.

Lemma choose_some (forward wrap : bool) (point : Z) (regions : list Region)
    (r : Region) :
  choose forward wrap point regions = Ok (Some r) →
  scan forward point regions = Some r
  ∨ (scan forward point regions = None ∧ wrap = true
     ∧ (if forward then head regions else last regions) = Some r).
Proof.
  unfold choose. destruct (scan _ _ _) as [r'|]; [intros [= ->]; by left|].
  intros C. right. split; [done|].
  destruct regions as [|x rest].
  { rewrite bool_decide_eq_false_2 in C by (simpl; lia).
    by rewrite getitem_nil in C. }
  destruct (if bool_decide (1 < length (x :: rest))%nat then Ok true
            else let! r0 := getitem (x :: rest) 0 in
                 Ok (negb (Region.contains_point r0 point)))
    as [[|]|]; cbn [bind] in C; [|done..].
  destruct wrap; [|done]. split; [done|]. destruct forward.
  - rewrite getitem_first in C. cbn [bind] in C. by injection C as ->.
  - rewrite getitem_minus_one in C. cbn [bind] in C. injection C as <-.
    by destruct (last (x :: rest)) eqn:L; [|apply last_None in L].
Qed.

(** X5: [find_error] changes nothing but the selection, the region shown
    and the messages: the marks, the recorded errors and the wrap setting
    are as before, a success shows no message and a failure shows one. *)
Theorem find_error_frame (forward : bool) (w w' : World) (res : option Region) :
  find_error forward w = Ok (res, w') →
  warning_marks (view w') = warning_marks (view w)
  ∧ error_marks (view w') = error_marks (view w)
  ∧ persist_errors w' = persist_errors w
  ∧ wrap_find w' = wrap_find w
  ∧ messages w'
    = messages w ++ match res with
                    | Some _ => []
                    | None => [no_more_message forward]
                    end.
Proof.
  intros F. apply find_error_cases in F. destruct res as [r|].
  - destruct F as [_ ->]. destruct w as [[]]. cbn. by rewrite app_nil_r.
  - destruct F as [_ ->]. by destruct w as [[]].
Qed.

Lemma find_error_frame_witness :
  ∃ w', find_error true (sample_world [Region.mk 5 5] None)
        = Ok (Some (Region.mk 10 12), w')
        ∧ error_marks (view w') = [Region.mk 0 2; Region.mk 20 25]
        ∧ messages w' = [].
Proof.
  eexists. split; [reflexivity|].
  destruct (find_error_frame true (sample_world [Region.mk 5 5] None) _
              (Some (Region.mk 10 12)) eq_refl) as (_ & E & _ & _ & M).
  split; [exact E | exact M].
Defined.

Lemma find_error_returns_in_scan (forward : bool) (w w' : World) (r : Region) :
  find_error forward w = Ok (Some r, w') → r ∈ regions_of (view w).
Proof.
  intros F. apply find_error_cases in F as [C _].
  apply choose_some in C as [S|(S & Wr & H)].
  - destruct forward.
    + apply scan_forward_first in S as (l1 & l2 & E & _).
      rewrite E. apply elem_of_app. right. by left.
    + apply scan_backward_first in S as (l1 & l2 & E & _).
      rewrite E. apply elem_of_app. right. by left.
  - destruct forward.
    + by apply head_Some_elem_of.
    + by apply last_Some_elem_of.
Qed.

(** X6: the region [find_error] returns is one of the regions it scans;
    going forward it begins after the point, going backward it ends
    before it, unless the search wrapped, in which case wrapping is
    switched on, nothing lay in that direction, and the region is the
    first one (forward) or the last one (backward). *)
Theorem find_error_returns_a_scanned_region (forward : bool) (w w' : World)
    (r : Region) :
  find_error forward w = Ok (Some r, w') →
  r ∈ regions_of (view w)
  ∧ ((if forward then anchor forward (sel (view w)) < Region.begin r
      else Region.end_ r < anchor forward (sel (view w)))
     ∨ (settings_get_wrap_find w = true
        ∧ scan forward (anchor forward (sel (view w))) (regions_of (view w))
          = None
        ∧ (if forward then head (regions_of (view w))
           else last (regions_of (view w))) = Some r)).
Proof.
  intros F. apply find_error_cases in F as [C _].
  apply choose_some in C as [S|(S & Wr & H)].
  - destruct forward.
    + apply scan_forward_first in S as (l1 & l2 & E & L & _).
      split; [|by left]. rewrite E. apply elem_of_app. right. by left.
    + apply scan_backward_first in S as (l1 & l2 & E & L & _).
      split; [|by left]. rewrite E. apply elem_of_app. right. by left.
  - split; [|by right]. destruct forward.
    + by apply head_Some_elem_of.
    + by apply last_Some_elem_of.
Qed.

Lemma find_error_returns_a_scanned_region_witness :
  Region.mk 0 2 ∈ regions_of (sample_view [Region.mk 40 40]).
Proof.
  apply (find_error_returns_a_scanned_region true
           (sample_world [Region.mk 40 40] None) _ (Region.mk 0 2) eq_refl).
Defined.

Lemma has_origin_self (marks : list Region) (r : Region) :
  r ∈ marks → has_origin marks r.
Proof. intros I. exists r. repeat split; [done|]. apply contains_iff. lia. Qed.

Lemma add_origin (marks : list Region) (r : Region) (s : list Region) :
  has_origin marks r → Forall (has_origin marks) s →
  Forall (has_origin marks) (Selection.add r s).
Proof.
  revert r. induction s as [|x s IH]; intros r Hr F; simpl.
  - by constructor.
  - apply Forall_cons in F as [Hx F].
    destruct (Region.intersects x r).
    + apply IH; [|done].
      destruct Hx as (mx & Ix & Cx & Bx), Hr as (mr & Ir & Cr & Br).
      apply contains_iff in Cx, Cr.
      destruct (decide (Region.begin x ≤ Region.begin r)).
      * exists mx. repeat split; [done| |].
        -- apply contains_iff. rewrite begin_cover, end_cover. lia.
        -- rewrite begin_cover. lia.
      * exists mr. repeat split; [done| |].
        -- apply contains_iff. rewrite begin_cover, end_cover. lia.
        -- rewrite begin_cover. lia.
    + case_bool_decide.
      * constructor; [done|]. by constructor.
      * constructor; [done|]. by apply IH.
Qed.

Lemma add_all_origin (marks rs s : list Region) :
  (∀ r, r ∈ rs → r ∈ marks) → Forall (has_origin marks) s →
  Forall (has_origin marks) (Selection.add_all rs s).
Proof.
  revert s. induction rs as [|r rs IH]; intros s Sub F; [done|].
  apply IH.
  - intros r' I. apply Sub. by right.
  - apply add_origin; [|done]. apply has_origin_self, Sub. by left.
Qed.

Lemma regions_of_origin (v : View) :
  Forall (has_origin (warning_marks v ++ error_marks v)) (regions_of v).
Proof.
  unfold regions_of. cbn [get_regions]. apply add_all_origin.
  - intros r I. apply elem_of_app. by right.
  - apply add_all_origin; [|constructor].
    intros r I. apply elem_of_app. by left.
Qed.

Lemma regions_of_sorted (v : View) :
  StronglySorted (key_le Region.begin) (regions_of v).
Proof. unfold regions_of. do 2 apply add_all_sorted. constructor. Qed.

Lemma regions_of_wf (v : View) : Selection.wf (regions_of v) = true.
Proof. unfold regions_of. by do 2 apply add_all_wf_preserved. Qed.

Lemma sorted_suffix {A} (R : A → A → Prop) (l1 l2 : list A) :
  StronglySorted R (l1 ++ l2) → StronglySorted R l2.
Proof.
  induction l1 as [|x l1 IH]; [done|]. simpl. intros S.
  apply StronglySorted_inv in S as [S _]. by apply IH.
Qed.

Lemma sorted_middle {A} (R : A → A → Prop) (l1 l2 : list A) (x : A) :
  StronglySorted R (l1 ++ x :: l2) → Forall (λ y, R y x) l1 ∧ Forall (R x) l2.
Proof.
  induction l1 as [|y l1 IH]; simpl; intros S.
  - apply StronglySorted_inv in S as [_ F]. by split.
  - apply StronglySorted_inv in S as [S F]. destruct (IH S) as [F1 F2].
    split; [|done]. constructor; [|done].
    rewrite Forall_app, Forall_cons in F. tauto.
Qed.

(** The mark [select_lint_region] selects for a region of the scan. *)
Lemma select_scanned_region (v : View) (r : Region) :
  r ∈ regions_of v →
  ∃ m, find_mark_within v r = Some m
       ∧ m ∈ warning_marks v ++ error_marks v
       ∧ Region.contains r m = true
       ∧ Region.begin m = Region.begin r.
Proof.
  intros I. pose proof (regions_of_origin v) as O.
  rewrite Forall_forall in O. destruct (O _ I) as (m0 & I0 & C0 & B0).
  unfold find_mark_within. cbn [get_regions].
  set (marks := sort_by Region.begin (warning_marks v ++ error_marks v)).
  assert (m0 ∈ marks) as I0' by (unfold marks; by rewrite sort_by_perm).
  destruct (List.find (λ mark, Region.contains r mark) marks) as [m|] eqn:Fd.
  - exists m. apply find_first in Fd as (l1 & l2 & E & F & C).
    split; [done|]. split.
    { rewrite <- (sort_by_perm Region.begin). fold marks. rewrite E.
      apply elem_of_app. right. by left. }
    split; [done|].
    assert (Region.begin r ≤ Region.begin m) by (apply contains_iff in C; lia).
    assert (Region.begin m ≤ Region.begin m0); [|lia].
    pose proof (sort_by_sorted Region.begin
                  (warning_marks v ++ error_marks v)) as S.
    fold marks in S. rewrite E in S, I0'.
    apply elem_of_app in I0' as [I1|I1].
    { rewrite Forall_forall in F. specialize (F _ I1). congruence. }
    apply elem_of_cons in I1 as [->|I1]; [lia|].
    apply sorted_suffix, StronglySorted_inv in S as [_ S].
    rewrite Forall_forall in S. by apply S.
  - apply find_nothing in Fd. rewrite Forall_forall in Fd.
    specialize (Fd _ I0'). congruence.
Qed.

(** X7: after a successful [find_error] exactly one span is selected and
    shown; it is one of the marks of the view, it lies within the region
    returned and it begins where that region begins, so the fallback of
    [select_lint_region] to an empty caret is never taken. *)
Theorem find_error_selects_a_mark (forward : bool) (w w' : World) (r : Region) :
  find_error forward w = Ok (Some r, w') →
  ∃ m, sel (view w') = [m]
       ∧ shown (view w') = Some m
       ∧ m ∈ warning_marks (view w) ++ error_marks (view w)
       ∧ Region.contains r m = true
       ∧ Region.begin m = Region.begin r.
Proof.
  intros F.
  pose proof (find_error_returns_in_scan forward w w' r F) as I.
  apply find_error_cases in F as [_ ->].
  destruct (select_scanned_region (view w) r I) as (m & Fd & Im & C & B).
  exists m. cbn [view set_view]. unfold select_lint_region. cbv zeta.
  assert (find_mark_within (set_sel [] (view w)) r = Some m) as ->
    by (by destruct (view w)).
  done.
Qed.

Lemma find_error_selects_a_mark_witness :
  ∃ m, m ∈ [Region.mk 10 12; Region.mk 30 35] ++ [Region.mk 0 2; Region.mk 20 25]
       ∧ Region.begin m = Region.begin (Region.mk 20 25).
Proof.
  destruct (find_error_selects_a_mark true
              (sample_world [Region.mk 10 10] None) _ (Region.mk 20 25) eq_refl)
    as (m & _ & _ & I & _ & B).
  by exists m.
Defined.

Lemma regions_of_set_sel (s : list Region) (v : View) :
  regions_of (set_sel s v) = regions_of v.
Proof. by destruct v. Qed.

(** The state a successful [find_error] leaves. *)
Lemma find_error_success (forward : bool) (w w' : World) (r : Region) :
  find_error forward w = Ok (Some r, w') →
  ∃ m, view w' = mkView [m] (warning_marks (view w)) (error_marks (view w))
                   (Some m)
       ∧ wrap_find w' = wrap_find w
       ∧ m ∈ warning_marks (view w) ++ error_marks (view w)
       ∧ Region.contains r m = true
       ∧ Region.begin m = Region.begin r.
Proof.
  intros F. pose proof (find_error_returns_in_scan forward w w' r F) as I.
  apply find_error_cases in F as [_ ->].
  destruct (select_scanned_region (view w) r I) as (m & Fd & Im & C & B).
  exists m. cbn [view set_view wrap_find]. unfold select_lint_region. cbv zeta.
  assert (find_mark_within (set_sel [] (view w)) r = Some m) as ->
    by (by destruct (view w)).
  by destruct (view w).
Qed.

Lemma find_error_of_scan (forward : bool) (w : World) (r : Region) :
  scan forward (anchor forward (sel (view w))) (regions_of (view w)) = Some r →
  ∃ w', find_error forward w = Ok (Some r, w').
Proof.
  intros S. rewrite find_error_eq. cbv zeta.
  rewrite (choose_scan _ _ _ _ r S). cbn [bind]. by eexists.
Qed.

Lemma wf_suffix (l1 l2 : list Region) :
  Selection.wf (l1 ++ l2) = true → Selection.wf l2 = true.
Proof.
  induction l1 as [|x l1 IH]; [done|]. simpl app. rewrite wf_cons_apart.
  intros [_ W]. by apply IH.
Qed.

(** X8: pressing "next" again moves on: after a forward [find_error]
    that returned a region, the next forward [find_error] returns the
    region that follows it in the scan, provided that one begins
    later. *)
Theorem next_error_moves_on (w w1 : World) (l1 l2 : list Region)
    (r r' : Region) :
  regions_of (view w) = l1 ++ r :: r' :: l2 →
  Region.begin r < Region.begin r' →
  find_error true w = Ok (Some r, w1) →
  ∃ w2, find_error true w1 = Ok (Some r', w2).
Proof.
  intros R Lt F.
  destruct (find_error_success true w w1 r F) as (m & V & _ & _ & _ & B).
  apply find_error_of_scan. rewrite V.
  assert (regions_of (mkView [m] (warning_marks (view w))
                        (error_marks (view w)) (Some m))
          = regions_of (view w)) as -> by (by destruct (view w)).
  cbn [sel]. change (anchor true [m]) with (Region.begin m). rewrite R.
  apply scan_forward_first. exists (l1 ++ [r]), l2.
  split; [by rewrite <- app_assoc|]. split; [lia|].
  pose proof (regions_of_sorted (view w)) as S. rewrite R in S.
  apply sorted_middle in S as [S _].
  apply Forall_app. split; [|constructor; [lia|done]].
  eapply Forall_impl; [exact S|]. unfold key_le. simpl. lia.
Qed.

Lemma next_error_moves_on_witness :
  ∃ w1 w2,
    find_error true (sample_world [Region.mk 5 5] None)
    = Ok (Some (Region.mk 10 12), w1)
    ∧ find_error true w1 = Ok (Some (Region.mk 20 25), w2).
Proof.
  eexists.
  destruct (next_error_moves_on (sample_world [Region.mk 5 5] None) _
              [Region.mk 0 2] [Region.mk 30 35]
              (Region.mk 10 12) (Region.mk 20 25)
              eq_refl eq_refl eq_refl) as [w2 F].
  exists w2. split; [reflexivity | exact F].
Defined.

(** X9: pressing "previous" again moves back: after a backward
    [find_error] that returned a region, the next backward [find_error]
    returns the region before it in the scan, provided that one ends
    before the region begins. *)
Theorem previous_error_moves_back (w w1 : World) (l1 l2 : list Region)
    (r' r : Region) :
  regions_of (view w) = l1 ++ r' :: r :: l2 →
  Region.end_ r' < Region.begin r →
  find_error false w = Ok (Some r, w1) →
  ∃ w2, find_error false w1 = Ok (Some r', w2).
Proof.
  intros R Lt F.
  destruct (find_error_success false w w1 r F) as (m & V & _ & _ & C & B).
  apply find_error_of_scan. rewrite V.
  assert (regions_of (mkView [m] (warning_marks (view w))
                        (error_marks (view w)) (Some m))
          = regions_of (view w)) as -> by (by destruct (view w)).
  cbn [sel]. change (anchor false [m]) with (Region.end_ m). rewrite R.
  apply contains_iff in C. pose proof (begin_le_end m).
  apply scan_backward_first. exists l1, (r :: l2).
  split; [done|]. split; [lia|].
  pose proof (regions_of_wf (view w)) as W. rewrite R in W.
  change (l1 ++ r' :: r :: l2) with (l1 ++ [r'] ++ r :: l2) in W.
  rewrite app_assoc in W. apply wf_suffix, wf_cons_apart in W as [A _].
  constructor; [lia|].
  eapply Forall_impl; [exact A|]. intros x [Hx _].
  pose proof (begin_le_end x). lia.
Qed.

Lemma previous_error_moves_back_witness :
  ∃ w1 w2,
    find_error false (sample_world [Region.mk 28 28] None)
    = Ok (Some (Region.mk 20 25), w1)
    ∧ find_error false w1 = Ok (Some (Region.mk 10 12), w2).
Proof.
  eexists.
  destruct (previous_error_moves_back (sample_world [Region.mk 28 28] None) _
              [Region.mk 0 2] [Region.mk 30 35]
              (Region.mk 10 12) (Region.mk 20 25)
              eq_refl eq_refl eq_refl) as [w2 F].
  exists w2. split; [reflexivity | exact F].
Defined.

(** X10: of the selection only the point counts: with the marks and the
    settings unchanged, any selection with the same point (the begin of
    its first span going forward, the end of its last span going
    backward) makes [find_error] return the same region. *)
Theorem find_error_looks_at_the_point_only (forward : bool) (w w1 : World)
    (s : list Region) (res : option Region) :
  anchor forward s = anchor forward (sel (view w)) →
  find_error forward w = Ok (res, w1) →
  ∃ w2, find_error forward (set_view (set_sel s (view w)) w) = Ok (res, w2).
Proof.
  intros A F. apply find_error_cases in F.
  rewrite find_error_eq. cbv zeta.
  assert (settings_get_wrap_find (set_view (set_sel s (view w)) w)
          = settings_get_wrap_find w) as -> by done.
  cbn [view set_view]. rewrite regions_of_set_sel.
  assert (sel (set_sel s (view w)) = s) as -> by (by destruct (view w)).
  rewrite A. destruct res as [r|]; destruct F as [-> _]; cbn [bind];
    by eexists.
Qed.

Lemma find_error_looks_at_the_point_only_witness :
  ∃ w2, find_error true
          (set_view (set_sel [Region.mk 5 7; Region.mk 22 23; Region.mk 50 50]
                       (view (sample_world [Region.mk 5 5] None)))
             (sample_world [Region.mk 5 5] None))
        = Ok (Some (Region.mk 10 12), w2).
Proof.
  apply (find_error_looks_at_the_point_only true
           (sample_world [Region.mk 5 5] None) _
           [Region.mk 5 7; Region.mk 22 23; Region.mk 50 50]
           (Some (Region.mk 10 12)) eq_refl eq_refl).
Defined.

Lemma choose_none (forward wrap : bool) (point : Z) (regions : list Region) :
  choose forward wrap point regions = Ok None →
  scan forward point regions = None
  ∧ (wrap = false
     ∨ ∃ r, regions = [r] ∧ Region.contains_point r point = true).
Proof.
  unfold choose. destruct (scan _ _ _) as [r'|]; [done|].
  intros C. split; [done|].
  destruct regions as [|x rest].
  { rewrite bool_decide_eq_false_2 in C by (simpl; lia).
    by rewrite getitem_nil in C. }
  case_bool_decide as L.
  - cbn [bind] in C. destruct wrap; [|by left].
    by destruct (if forward then _ else _).
  - rewrite getitem_first in C. cbn [bind] in C.
    destruct (Region.contains_point x point) eqn:Cx; cbn [negb] in C.
    + right. exists x. split; [|done].
      destruct rest; [done|]. simpl in L. lia.
    + destruct wrap; [|by left]. by destruct (if forward then _ else _).
Qed.

(** X11: [find_error] only fails when nothing lies in the direction of
    the search and, besides, wrapping is switched off or the only region
    there is holds the point. *)
Theorem find_error_fails_only_at_a_boundary (forward : bool) (w w' : World) :
  find_error forward w = Ok (None, w') →
  scan forward (anchor forward (sel (view w))) (regions_of (view w)) = None
  ∧ (settings_get_wrap_find w = false
     ∨ ∃ r, regions_of (view w) = [r]
            ∧ Region.contains_point r (anchor forward (sel (view w))) = true).
Proof.
  intros F. apply find_error_cases in F as [C _]. by apply choose_none.
Qed.

Lemma find_error_fails_only_at_a_boundary_witness :
  scan true (anchor true [Region.mk 1 1]) (regions_of (view (sole_world [Region.mk 1 1])))
  = None
  ∧ (settings_get_wrap_find (sole_world [Region.mk 1 1]) = false
     ∨ ∃ r, regions_of (view (sole_world [Region.mk 1 1])) = [r]
            ∧ Region.contains_point r (anchor true [Region.mk 1 1]) = true).
Proof.
  apply (find_error_fails_only_at_a_boundary true
           (sole_world [Region.mk 1 1]) _ eq_refl).
Defined.

(** X12: a failure repeats: after a [find_error] that failed, the same
    [find_error] fails again, showing the same message once more and
    changing nothing else. *)
Theorem find_error_fails_again (forward : bool) (w w1 : World) :
  Selection.wf (sel (view w)) = true →
  find_error forward w = Ok (None, w1) →
  find_error forward w1
  = Ok (None, error_message (no_more_message forward) w1)
  ∧ view w1 = view w.
Proof.
  intros W F. apply find_error_cases in F as [C ->].
  rewrite restored by done. split; [|done].
  apply find_error_fails; [done|]. exact C.
Qed.

Lemma find_error_fails_again_witness :
  find_error true
    (error_message "No next lint errors."
       (sample_world [Region.mk 40 40] (Some false)))
  = Ok (None,
        error_message "No next lint errors."
          (error_message "No next lint errors."
             (sample_world [Region.mk 40 40] (Some false)))).
Proof.
  apply (find_error_fails_again true
           (sample_world [Region.mk 40 40] (Some false)) _ eq_refl eq_refl).
Defined.

(** X13: the two commands keep the selection well formed: run on a view
    whose selection is sorted and free of intersecting spans, they leave
    such a selection. *)
Theorem navigation_keeps_the_selection_well_formed (w w' : World) :
  Selection.wf (sel (view w)) = true →
  (next_error_run w = Ok w' → Selection.wf (sel (view w')) = true)
  ∧ (previous_error_run w = Ok w' → Selection.wf (sel (view w')) = true).
Proof.
  intros W. unfold next_error_run, previous_error_run, error_command.
  destruct (persist_errors w) as [errors|].
  - case_bool_decide.
    + split.
      * destruct (find_error true w) as [[r w2]|] eqn:F; cbn [bind]; [|done].
        intros [= <-]. by eapply find_error_keeps_wf.
      * destruct (find_error false w) as [[r w2]|] eqn:F; cbn [bind]; [|done].
        intros [= <-]. by eapply find_error_keeps_wf.
    + split; by intros [= <-].
  - split; by intros [= <-].
Qed.

Lemma navigation_keeps_the_selection_well_formed_witness :
  Selection.wf [Region.mk 10 12] = true.
Proof.
  apply (proj1 (navigation_keeps_the_selection_well_formed
                  (sample_world [Region.mk 5 5] None)
                  (mkWorld (mkView [Region.mk 10 12]
                              [Region.mk 10 12; Region.mk 30 35]
                              [Region.mk 0 2; Region.mk 20 25]
                              (Some (Region.mk 10 12)))
                     (Some {[ 0 := ["E"] ]}) None []) eq_refl)).
  reflexivity.
Defined.


(** X14: the mark [find_mark_within] returns is a mark of the view that
    lies within the region; no mark within the region begins earlier;
    where a warning within the region begins at the same offset, the
    mark returned is a warning too; and nothing is returned only when no
    mark lies within the region. *)
Theorem find_mark_within_finds_the_earliest (v : View) (region : Region) :
  match find_mark_within v region with
  | Some m =>
      m ∈ warning_marks v ++ error_marks v
      ∧ Region.contains region m = true
      ∧ (∀ m', m' ∈ warning_marks v ++ error_marks v →
           Region.contains region m' = true →
           Region.begin m ≤ Region.begin m')
      ∧ (∀ m', m' ∈ warning_marks v →
           Region.contains region m' = true →
           Region.begin m' = Region.begin m →
           m ∈ warning_marks v)
  | None =>
      ∀ m', m' ∈ warning_marks v ++ error_marks v →
        Region.contains region m' = false
  end.
Proof.
  unfold find_mark_within. cbn [get_regions].
  set (all := warning_marks v ++ error_marks v).
  set (marks := sort_by Region.begin all).
  destruct (List.find (λ mark, Region.contains region mark) marks)
    as [m|] eqn:Fd.
  - apply find_first in Fd as (l1 & l2 & E & F & C).
    rewrite Forall_forall in F.
    split; [|split; [done|split]].
    + unfold all. rewrite <- (sort_by_perm Region.begin). fold all marks.
      rewrite E. apply elem_of_app. right. by left.
    + intros m' I' C'.
      assert (m' ∈ marks) as I by (unfold marks; by rewrite sort_by_perm).
      rewrite E in I. apply elem_of_app in I as [I|I].
      { specialize (F _ I). congruence. }
      apply elem_of_cons in I as [->|I]; [lia|].
      pose proof (sort_by_sorted Region.begin all) as S. fold marks in S.
      rewrite E in S. apply sorted_middle in S as [_ S].
      rewrite Forall_forall in S. by apply S.
    + intros m' I' C' B.
      pose proof (sort_by_stable Region.begin (Region.begin m) all) as St.
      fold marks in St. rewrite E in St. unfold all in St.
      rewrite !filter_app, filter_cons, decide_True in St by done.
      assert (m' ∈ filter (λ y, Region.begin y = Region.begin m)
                     (warning_marks v)) as Fm'
        by (by apply list_elem_of_filter).
      assert (∀ x, x ∈ filter (λ y, Region.begin y = Region.begin m) l1 →
                   Region.contains region x = false) as Fl1.
      { intros x Ix. apply list_elem_of_filter in Ix as [_ Ix]. by apply F. }
      apply app_eq_inv in St as [(k & E1 & E2)|(k & E1 & E2)].
      * rewrite E1 in Fl1. rewrite Fl1 in C'; [done|].
        apply elem_of_app. by left.
      * destruct k as [|x k].
        -- rewrite app_nil_r in E1. rewrite <- E1 in Fl1.
           rewrite Fl1 in C'; done.
        -- injection E2 as <- _.
           assert (m ∈ filter (λ y, Region.begin y = Region.begin m)
                         (warning_marks v)) as Im.
           { rewrite E1. apply elem_of_app. right. by left. }
           by apply list_elem_of_filter in Im as [_ Im].
  - apply find_nothing in Fd. rewrite Forall_forall in Fd.
    intros m' I'. apply Fd. unfold marks. by rewrite sort_by_perm.
Qed.

(** ** Reports *)

Lemma header_not_empty (first : Linter) (s : string) : header first +:+ s ≠ "".
Proof. unfold header, nl. by rewrite append_cons. Qed.

Lemma insert_is_fragment (linters : list Linter) (t : string) :
  insert linters t = Ok (t +:+ fragment linters).
Proof.
  destruct linters as [|first rest].
  - unfold insert, fragment. simpl. by rewrite append_empty_r.
  - unfold fragment. destruct (existsb has_errors (first :: rest)) eqn:E.
    + by rewrite insert_fragment.
    + by rewrite insert_clean, append_empty_r.
Qed.

(** X15: [insert] never raises ([linters[0]] is only read when some
    linter has errors) and never rewrites the output: the text after it
    is the text before it followed by what it adds, which is empty
    exactly when no linter has an error. *)
Theorem insert_only_appends (linters : list Linter) (t : string) :
  ∃ added,
    insert linters t = Ok (t +:+ added)
    ∧ (added = "" ↔ Forall (λ l, errors l = ∅) linters).
Proof.
  exists (fragment linters). split; [apply insert_is_fragment|].
  rewrite <- existsb_has_errors_false. unfold fragment.
  destruct linters as [|first rest]; [done|].
  destruct (existsb has_errors (first :: rest)); [|done].
  split; [|done]. intros E. by apply header_not_empty in E.
Qed.

Lemma finish_lint_is_fragment (linters : list Linter) (t : string) :
  finish_lint linters (mkOutput t [])
  = Ok (mkOutput (t +:+ fragment linters) []).
Proof.
  destruct linters as [|first rest].
  - unfold fragment. by rewrite append_empty_r.
  - rewrite finish_lint_alone by done. by rewrite insert_is_fragment.
Qed.

(** X16: lint runs that finish one after the other each add their whole
    fragment at the end: the report is the text it started with followed
    by the fragments in the order the runs finished, no fragment inside
    another, and no edit is left in the queue. *)
Theorem fragments_are_appended_whole (completions : list (list Linter))
    (t : string) :
  finish_all completions (mkOutput t [])
  = Ok (mkOutput (t +:+ joined (map fragment completions)) []).
Proof.
  unfold finish_all.
  assert (∀ t, foldl (λ acc linters, let! o := acc in finish_lint linters o)
                 (Ok (mkOutput t [])) completions
               = Ok (mkOutput (t +:+ joined (map fragment completions)) []))
    as G; [|apply G].
  induction completions as [|c cs IH]; intros t'; simpl.
  - by rewrite append_empty_r.
  - rewrite finish_lint_is_fragment, IH. by rewrite append_assoc.
Qed.
